(** * topo_order_commits: commit graph, topological sort and sticky output

    A shallow embedding of [topo_order_commits.py].  The file-system part of
    the program (walking [.git/refs/heads] and [.git/objects]) is taken as the
    producer of two inputs: the list of commit objects and the dictionary of
    branch heads.  Everything after that -- [build_commit_graph],
    [remove_unvisited_commits], [topological_sort] and
    [print_sticky_sorted_order] -- is modelled statement by statement.

    Python lists of mutable objects are modelled by explicit state passing:
    the list [commits] is the store, and mutating the object returned by
    [grab_corresponding_commit] is an update of the first entry of the store
    carrying that hash. *)

From stdpp Require Import gmap strings list sorting.
From Stdlib Require Import ZArith Lia Ascii.

#[local] Set Warnings "-clear-no-such-hyp".
Local Open Scope Z_scope.
Local Open Scope nat_scope.

(** ** Python primitives used by the program *)

Module Py.

(** Number of occurrences, [list.count]. *)
Fixpoint count (x : string) (l : list string) : nat :=
  match l with
  | [] => 0
  | y :: l' => (if decide (y = x) then 1 else 0) + count x l'
  end.

(** [list.remove(x)]: drops the first occurrence; [None] stands for the
    [ValueError] raised when there is none. *)
Fixpoint list_remove (x : string) (l : list string) : option (list string) :=
  match l with
  | [] => None
  | y :: l' =>
      if decide (y = x) then Some l'
      else match list_remove x l' with
           | Some k => Some (y :: k)
           | None => None
           end
  end.

Definition LF : string := String "010"%char "".

(** The text [print] writes when given the unpacked list [args] and
    [end=e]: the arguments separated by one space, then [e]. *)
Definition print_end (args : list string) (e : string) : string :=
  String.concat " " args +:+ e.

(** [print] with the default [end], a line feed. *)
Definition print (args : list string) : string := print_end args LF.

(** Exceptions the program can die of: attribute access on [None]. *)
Inductive exn := AttributeError (attr : string).

Inductive result (A : Type) :=
| Ok (a : A)
| Raise (e : exn).
Global Arguments Ok {A} a.
Global Arguments Raise {A} e.

(** How a function that may call [sys.exit] ends. *)
Inductive outcome (A : Type) :=
| Return (a : A)
| Exit (status : Z).
Global Arguments Return {A} a.
Global Arguments Exit {A} status.

End Py.
Import Py.

(** ** CommitObject *)

Record CommitObject := mkCommit {
  commit_hash : string;
  parents : list string;
  children : list string;
  temp_parents : list string
}.

(** [CommitObject(h)] followed by the appends [grab_commits] makes to
    [parents]. *)
Definition new_commit (h : string) (ps : list string) : CommitObject :=
  mkCommit h ps [] [].

(** [__eq__]: [other == self.commit_hash]. *)
Definition commit_eq (c : CommitObject) (other : string) : bool :=
  bool_decide (other = commit_hash c).

Definition initialize_temp_parents (c : CommitObject) : CommitObject :=
  mkCommit (commit_hash c) (parents c) (children c) (parents c).

Definition append_child (h : string) (c : CommitObject) : CommitObject :=
  mkCommit (commit_hash c) (parents c) (children c ++ [h]) (temp_parents c).

Definition set_temp_parents (tp : list string) (c : CommitObject) : CommitObject :=
  mkCommit (commit_hash c) (parents c) (children c) tp.

Fixpoint grab_corresponding_commit (commits : list CommitObject) (h : string)
  : option CommitObject :=
  match commits with
  | [] => None
  | commit :: rest =>
      if commit_eq commit h then Some commit
      else grab_corresponding_commit rest h
  end.

(** Mutation of the object [grab_corresponding_commit commits h] returns. *)
Fixpoint update_commit (h : string) (f : CommitObject → CommitObject)
    (commits : list CommitObject) : list CommitObject :=
  match commits with
  | [] => []
  | commit :: rest =>
      if commit_eq commit h then f commit :: rest
      else commit :: update_commit h f rest
  end.

(** ** remove_unvisited_commits *)

(** [commits.remove(commit)]: drops the first entry equal to [commit], and
    two commit objects are equal when their hashes are. *)
Fixpoint remove_commit (commit : CommitObject) (commits : list CommitObject)
  : list CommitObject :=
  match commits with
  | [] => []
  | c :: rest =>
      if commit_eq c (commit_hash commit) then rest
      else c :: remove_commit commit rest
  end.

(** [commit not in visited], with [visited] the list of keys of the
    dictionary. *)
Definition not_in_visited (visited : gmap string bool) (commit : CommitObject) : bool :=
  bool_decide (visited !! commit_hash commit = None).

(** The [for commit in commits] loop keeps an index into the list it is
    removing from. *)
Fixpoint remove_unvisited_loop (fuel i : nat) (commits : list CommitObject)
    (visited : gmap string bool) : list CommitObject :=
  match fuel with
  | 0 => commits
  | S fuel' =>
      match commits !! i with
      | None => commits
      | Some commit =>
          if not_in_visited visited commit
          then remove_unvisited_loop fuel' (S i) (remove_commit commit commits) visited
          else remove_unvisited_loop fuel' (S i) commits visited
      end
  end.

Definition remove_unvisited_commits (commits : list CommitObject)
    (visited : gmap string bool) : list CommitObject :=
  remove_unvisited_loop (length commits) 0 commits visited.

(** ** build_commit_graph *)

Record graph_state := mkGraph {
  g_visited : gmap string bool;
  g_processing_list : list string;
  g_commits : list CommitObject;
  g_root_commits : list string
}.

(** Lines 203-204: the work list is seeded with the keys of [branches] in
    the order the dictionary yields them. *)
Definition seed_processing_list (branches : list (string * list string)) : list string :=
  fold_left (λ processing_list branch, processing_list ++ [branch.1]) branches [].

(** Lines 222-227, the body of [for parent in commit.parents]. *)
Definition visit_parent (commit_hash parent : string) (st : graph_state)
  : result graph_state :=
  let st1 :=
    match g_visited st !! parent with
    | None => mkGraph (<[parent := false]> (g_visited st))
                      (g_processing_list st ++ [parent])
                      (g_commits st) (g_root_commits st)
    | Some _ => st
    end in
  match grab_corresponding_commit (g_commits st1) parent with
  | None => Raise (AttributeError "children")
  | Some _ =>
      Ok (mkGraph (g_visited st1) (g_processing_list st1)
                  (update_commit parent (append_child commit_hash) (g_commits st1))
                  (g_root_commits st1))
  end.

(** Lines 221-227, [for parent in commit.parents]. *)
Fixpoint visit_parents (commit_hash : string) (ps : list string) (st : graph_state)
  : result graph_state :=
  match ps with
  | [] => Ok st
  | parent :: ps' =>
      match visit_parent commit_hash parent st with
      | Raise e => Raise e
      | Ok st1 => visit_parents commit_hash ps' st1
      end
  end.

(** Lines 208-227, [for commit_hash in processing_list]; [i] is the index of
    the iterator into the growing list. *)
Fixpoint build_loop (fuel i : nat) (st : graph_state) : option (result graph_state) :=
  match fuel with
  | 0 => None
  | S fuel' =>
      match g_processing_list st !! i with
      | None => Some (Ok st)
      | Some commit_hash =>
          match g_visited st !! commit_hash with
          | Some true => build_loop fuel' (S i) st
          | _ =>
              let visited1 := <[commit_hash := true]> (g_visited st) in
              match grab_corresponding_commit (g_commits st) commit_hash with
              | None => Some (Raise (AttributeError "parents"))
              | Some commit =>
                  let roots1 :=
                    match parents commit with
                    | [] => g_root_commits st ++ [commit_hash]
                    | _ => g_root_commits st
                    end in
                  match visit_parents commit_hash (parents commit)
                          (mkGraph visited1 (g_processing_list st) (g_commits st) roots1) with
                  | Raise e => Some (Raise e)
                  | Ok st' => build_loop fuel' (S i) st'
                  end
              end
          end
      end
  end.

(** The whole function.  It mutates [commits] and [root_commits] in place;
    here it returns them.  The loop runs once per entry of the work list,
    which holds the branch heads and then each hash at most once, hence the
    bound. *)
Definition build_commit_graph (branches : list (string * list string))
    (commits : list CommitObject) (root_commits : list string)
  : option (result (list CommitObject * list string)) :=
  match build_loop (S (length branches + length commits)) 0
          (mkGraph ∅ (seed_processing_list branches) commits root_commits) with
  | None => None
  | Some (Raise e) => Some (Raise e)
  | Some (Ok st) =>
      Some (Ok (remove_unvisited_commits (g_commits st) (g_visited st),
                g_root_commits st))
  end.

(** ** topological_sort *)

Record sort_state := mkSort {
  s_commits : list CommitObject;
  s_processing_list : list string;
  s_sorted_list : list string;
  s_stderr : list string
}.

Definition warning_missing_parent : string := "attempting to remove nonexisting parent".
Definition error_cycle : string := "cycle in .git graph detected".
Definition error_sort : string := "failure to generate topological sort".

(** Lines 249-256, the body of [for child in commit.children]. *)
Definition release_child (commit_hash child : string) (st : sort_state)
  : result sort_state :=
  match grab_corresponding_commit (s_commits st) child with
  | None => Raise (AttributeError "temp_parents")
  | Some child_commit =>
      let '(tp, err) :=
        match list_remove commit_hash (temp_parents child_commit) with
        | Some tp => (tp, s_stderr st)
        | None => (temp_parents child_commit, s_stderr st ++ [warning_missing_parent])
        end in
      Ok (mkSort (update_commit child (set_temp_parents tp) (s_commits st))
                 (match tp with
                  | [] => s_processing_list st ++ [child]
                  | _ => s_processing_list st
                  end)
                 (s_sorted_list st) err)
  end.

(** Lines 248-256, [for child in commit.children]. *)
Fixpoint release_children (commit_hash : string) (cs : list string) (st : sort_state)
  : result sort_state :=
  match cs with
  | [] => Ok st
  | child :: cs' =>
      match release_child commit_hash child st with
      | Raise e => Raise e
      | Ok st1 => release_children commit_hash cs' st1
      end
  end.

(** Lines 245-256, [for commit_hash in processing_list]. *)
Fixpoint sort_loop (fuel i : nat) (st : sort_state) : option (result sort_state) :=
  match fuel with
  | 0 => None
  | S fuel' =>
      match s_processing_list st !! i with
      | None => Some (Ok st)
      | Some commit_hash =>
          let sorted1 := s_sorted_list st ++ [commit_hash] in
          match grab_corresponding_commit (s_commits st) commit_hash with
          | None => Some (Raise (AttributeError "children"))
          | Some commit =>
              match release_children commit_hash (children commit)
                      (mkSort (s_commits st) (s_processing_list st) sorted1 (s_stderr st)) with
              | Raise e => Some (Raise e)
              | Ok st' => sort_loop fuel' (S i) st'
              end
          end
      end
  end.

(** What [topological_sort] leaves behind: the store, the list bound to
    [root_commits] (the function's [processing_list] is the same list
    object), what went to the error stream, and either the returned list or
    the status given to [sys.exit]. *)
Record sort_result := mkSorted {
  r_commits : list CommitObject;
  r_root_commits : list string;
  r_stderr : list string;
  r_outcome : outcome (list string)
}.

(** Lines 258-267, after the queue has drained. *)
Definition sort_checks (st : sort_state) : sort_result :=
  if existsb (λ commit, negb (bool_decide (temp_parents commit = []))) (s_commits st)
  then mkSorted (s_commits st) (s_processing_list st) (s_stderr st ++ [error_cycle]) (Exit 1)
  else if bool_decide (length (s_commits st) ≠ length (s_sorted_list st))
  then mkSorted (s_commits st) (s_processing_list st) (s_stderr st ++ [error_sort]) (Exit 1)
  else mkSorted (s_commits st) (s_processing_list st) (s_stderr st) (Return (s_sorted_list st)).

(** [None]: the queue loop is still running after [fuel] iterations. *)
Definition topological_sort (fuel : nat) (commits : list CommitObject)
    (root_commits : list string) : option (result sort_result) :=
  match sort_loop fuel 0
          (mkSort (initialize_temp_parents <$> commits) root_commits [] []) with
  | None => None
  | Some (Raise e) => Some (Raise e)
  | Some (Ok st) => Some (Ok (sort_checks st))
  end.

(** ** print_sticky_sorted_order *)

(** [branches.get(h)] on the dictionary kept in insertion order. *)
Fixpoint branches_get (branches : list (string * list string)) (h : string)
  : option (list string) :=
  match branches with
  | [] => None
  | (k, names) :: rest => if decide (k = h) then Some names else branches_get rest h
  end.

(** One round of the loop at lines 293-310.  It returns the text written to
    standard output, the new value of [prev_empty], and the exception that
    ended the round, if any. *)
(** Lines 302-305: the hash, followed by the names of its branches. *)
Definition commit_line (branches : list (string * list string)) (current_hash : string)
  : string :=
  match branches_get branches current_hash with
  | None => print [current_hash]
  | Some names => print (current_hash :: names)
  end.

Definition sticky_round (commits : list CommitObject)
    (branches : list (string * list string))
    (prev_empty : bool) (current_hash : string) (next_hash : option string)
  : string * bool * option exn :=
  let current_commit := grab_corresponding_commit commits current_hash in
  let line := commit_line branches current_hash in
  match prev_empty, current_commit with
  | true, None => (print_end ["="] "", true, Some (AttributeError "children"))
  | _, _ =>
      let head :=
        match prev_empty, current_commit with
        | true, Some c => print_end ["="] "" +:+ print (children c)
        | _, _ => ""
        end in
      match next_hash, current_commit with
      | None, _ => (head +:+ line, false, None)
      | Some _, None => (head +:+ line, false, Some (AttributeError "parents"))
      | Some n, Some c =>
          if bool_decide (n ∉ parents c)
          then (head +:+ line +:+ print_end (parents c) "" +:+ print ["=" +:+ LF], true, None)
          else (head +:+ line, false, None)
      end
  end.

(** The loop over [zip(order, order[1:] + [None])]. *)
Fixpoint sticky_loop (commits : list CommitObject)
    (branches : list (string * list string))
    (prev_empty : bool) (order : list string) : string * option exn :=
  match order with
  | [] => ("", None)
  | current_hash :: rest =>
      match sticky_round commits branches prev_empty current_hash (head rest) with
      | (out, _, Some e) => (out, Some e)
      | (out, prev_empty', None) =>
          let '(out', e) := sticky_loop commits branches prev_empty' rest in
          (out +:+ out', e)
      end
  end.

Definition print_sticky_sorted_order (topo_ordered_commits : list string)
    (commits : list CommitObject) (branches : list (string * list string))
  : string * option exn :=
  sticky_loop commits branches false topo_ordered_commits.

(** ** topo_order_commits, steps 3 to 5 *)

(** How a run ends: normally or through [sys.exit], with what it wrote and
    its status; or by an exception nobody catches, which makes the
    interpreter print a traceback and exit with status 1. *)
Inductive run_end :=
| Finished (stdout : string) (stderr : list string) (status : Z)
| Traceback (stdout : string) (stderr : list string) (e : exn).

Definition run_status (r : run_end) : Z :=
  match r with
  | Finished _ _ status => status
  | Traceback _ _ _ => 1%Z
  end.

Definition sort_branch_names (branches : list (string * list string))
  : list (string * list string) :=
  (λ branch, (branch.1, merge_sort String.le branch.2)) <$> branches.

(** Steps 3 and 4: the graph, then the order. *)
Definition build_and_sort (fuel : nat) (branches : list (string * list string))
    (commits : list CommitObject) : option (result sort_result) :=
  match build_commit_graph branches commits [] with
  | None => None
  | Some (Raise e) => Some (Raise e)
  | Some (Ok (commits1, root_commits)) => topological_sort fuel commits1 root_commits
  end.

Definition topo_order_commits (fuel : nat) (branches : list (string * list string))
    (commits : list CommitObject) : option run_end :=
  match build_and_sort fuel branches commits with
  | None => None
  | Some (Raise e) => Some (Traceback "" [] e)
  | Some (Ok r) =>
      match r_outcome r with
      | Exit status => Some (Finished "" (r_stderr r) status)
      | Return topo_ordered_commits =>
          match print_sticky_sorted_order (reverse topo_ordered_commits)
                  (r_commits r) (sort_branch_names branches) with
          | (out, None) => Some (Finished out (r_stderr r) 0)
          | (out, Some e) => Some (Traceback out (r_stderr r) e)
          end
      end
  end.

(** ** The collaborators on the file system

    What the program reads from the file system is taken as input: whether
    a directory is there, and the files a walk yields, in the order it
    yields them.  A Python [str] is held as its UTF-8 bytes, so decoding
    bytes is a validity check. *)

(** *** navigate_to_git_parent_directory *)

Definition error_not_in_repository : string := "Not inside a Git Repository".

(** The working directory is the list of its components, innermost first;
    the root is the empty list.  [exists_git d] says whether [d] has an
    entry [.git].  The result is the directory the process ends in, or
    [None] when it exits with status 1 after the message. *)
Fixpoint navigate_to_git_parent_directory (exists_git : list string → bool)
    (cwd : list string) : option (list string) :=
  if exists_git cwd then Some cwd
  else match cwd with
       | [] => None
       | _ :: parent => navigate_to_git_parent_directory exists_git parent
       end.

(** *** return_branches *)

Definition error_invalid_repository : string := ".git is not a valid Git Repository".

(** Lines 88-91: a new key goes to the end of the dictionary, a known key
    gets the path appended to its list. *)
Fixpoint branches_add (branches : list (string * list string)) (sha1_hash path : string)
  : list (string * list string) :=
  match branches with
  | [] => [(sha1_hash, [path])]
  | (k, paths) :: rest =>
      if decide (k = sha1_hash) then (k, paths ++ [path]) :: rest
      else (k, paths) :: branches_add rest sha1_hash path
  end.

(** Lines 76-91: [files] are the files under [refs/heads] as the walk
    yields them, each with its path from there and its first line,
    stripped. *)
Definition collect_branches (files : list (string * string)) : list (string * list string) :=
  fold_left (λ branches file, branches_add branches file.2 file.1) files [].


(** *** grab_commits *)

Definition error_no_commits : string :=
  "Could not find any commits, may be packed or nonexistent".

(** What can go wrong while an object file is read: the unpacking of a
    split that found no NUL byte, and the decoding of a parent line. *)
Inductive object_error := ValueError | UnicodeDecodeError.

(** [data.split(b'\0', 1)] unpacked into two names. *)
Fixpoint split_header (data : string) : option (string * string) :=
  match data with
  | EmptyString => None
  | String a rest =>
      if decide (a = "000"%char) then Some (EmptyString, rest)
      else match split_header rest with
           | Some (header, content) => Some (String a header, content)
           | None => None
           end
  end.

(** [content.split(b'\n')]. *)
Fixpoint split_lines (content : string) : list string :=
  match content with
  | EmptyString => [EmptyString]
  | String a rest =>
      if decide (a = "010"%char) then EmptyString :: split_lines rest
      else match split_lines rest with
           | line :: lines => String a line :: lines
           | [] => [String a EmptyString]
           end
  end.

(** [path.replace('/', '')]. *)
Fixpoint remove_slashes (path : string) : string :=
  match path with
  | EmptyString => EmptyString
  | String a rest =>
      if decide (a = "/"%char) then remove_slashes rest
      else String a (remove_slashes rest)
  end.

Fixpoint drop_bytes (n : nat) (s : string) : string :=
  match n, s with
  | S n', String _ rest => drop_bytes n' rest
  | _, _ => s
  end.

(** A byte that continues a character begun before it. *)
Definition is_continuation (a : ascii) : bool :=
  let n := nat_of_ascii a in (128 <=? n) && (n <? 192).

Fixpoint drop_continuation (s : string) : string :=
  match s with
  | String a rest => if is_continuation a then drop_continuation rest else s
  | EmptyString => s
  end.

(** [line[7:]] on the decoded line, which starts with the six letters of
    [parent]: those go, and one more character with them. *)
Definition after_parent (line : string) : string :=
  match drop_bytes 6 line with
  | String _ rest => drop_continuation rest
  | EmptyString => EmptyString
  end.

(** Lines 161-166, [for line in content.split(b'\n')]; [utf8] tells
    whether bytes decode. *)
Fixpoint read_parents (utf8 : string → bool) (lines : list string) (parents : list string)
  : object_error + list string :=
  match lines with
  | [] => inr parents
  | line :: rest =>
      if String.prefix "author" line then inr parents
      else if String.prefix "parent" line then
        if utf8 line then read_parents utf8 rest (parents ++ [after_parent line])
        else inl UnicodeDecodeError
      else read_parents utf8 rest parents
  end.

(** Lines 135-167, one object file: its path under [objects] and its
    decompressed bytes.  [None] when the object is no commit. *)
Definition read_object (utf8 : string → bool) (path data : string)
  : object_error + option CommitObject :=
  match split_header data with
  | None => inl ValueError
  | Some (header, content) =>
      if String.prefix "commit" header then
        match read_parents utf8 (split_lines content) [] with
        | inl e => inl e
        | inr parents => inr (Some (mkCommit (remove_slashes path) parents [] []))
        end
      else inr None
  end.

(** Lines 122-167, the walk. *)
Fixpoint read_objects (utf8 : string → bool) (files : list (string * string))
    (commits : list CommitObject) : object_error + list CommitObject :=
  match files with
  | [] => inr commits
  | (path, data) :: rest =>
      match read_object utf8 path data with
      | inl e => inl e
      | inr None => read_objects utf8 rest commits
      | inr (Some commit) => read_objects utf8 rest (commits ++ [commit])
      end
  end.

(** The function: the error stream, and the commits, the exit status, or
    the exception that ended it. *)
Definition grab_commits (utf8 : string → bool) (objects_is_dir : bool)
    (files : list (string * string))
  : object_error + (list string * outcome (list CommitObject)) :=
  if negb objects_is_dir then inr ([error_invalid_repository], Exit 1)
  else match read_objects utf8 files [] with
       | inl e => inl e
       | inr [] => inr ([error_no_commits], Exit 1)
       | inr commits => inr ([], Return commits)
       end.

(** ** Vocabulary of the statements *)

(** *** Reading the store by hash *)

Definition hashes (commits : list CommitObject) : list string :=
  commit_hash <$> commits.

(** The fields of the object [grab_corresponding_commit] finds for [h];
    empty when there is none. *)
Definition parents_of (commits : list CommitObject) (h : string) : list string :=
  from_option parents [] (grab_corresponding_commit commits h).
Definition children_of (commits : list CommitObject) (h : string) : list string :=
  from_option children [] (grab_corresponding_commit commits h).
Definition temp_of (commits : list CommitObject) (h : string) : list string :=
  from_option temp_parents [] (grab_corresponding_commit commits h).
(** There is a commit object with hash [h]. *)
Definition has (commits : list CommitObject) (h : string) : Prop :=
  is_Some (grab_corresponding_commit commits h).

(** The part of a commit object that is fixed once the graph is built. *)
Definition static (c : CommitObject) : string * list string * list string :=
  (commit_hash c, parents c, children c).
(** The part fixed from the start. *)
Definition record (c : CommitObject) : string * list string :=
  (commit_hash c, parents c).

(** *** Inputs and reachability *)

(** Commit objects as [grab_commits] makes them: no child recorded yet. *)
Definition fresh (commits : list CommitObject) : Prop :=
  Forall (λ c, children c = []) commits.

(** Hashes reachable from the branch heads along [parents]. *)
Inductive reachable (heads : list string) (cs0 : list CommitObject) : string → Prop :=
| reach_head h : h ∈ heads → reachable heads cs0 h
| reach_parent c p :
    reachable heads cs0 c → p ∈ parents_of cs0 c → reachable heads cs0 p.

(** [p] is listed as a parent by the commit with hash [c]. *)
Definition is_parent (commits : list CommitObject) (p c : string) : Prop :=
  p ∈ parents_of commits c.

(** No infinite chain of parents: every hash is accessible. *)
Definition acyclic (commits : list CommitObject) : Prop :=
  ∀ h, Acc (is_parent commits) h.

(** [h] is its own ancestor. *)
Definition on_cycle (commits : list CommitObject) (h : string) : Prop :=
  tc (is_parent commits) h h.

(** *** What holds while the loops run *)

(** Between two rounds of the loop of [build_commit_graph], with the
    iterator at index [i]. *)
Record build_inv (heads : list string) (cs0 : list CommitObject)
    (i : nat) (st : graph_state) : Prop := mkBuildInv {
  bi_index : i ≤ length (g_processing_list st);
  bi_record : record <$> g_commits st = record <$> cs0;
  bi_done : ∀ h, g_visited st !! h = Some true ↔ h ∈ take i (g_processing_list st);
  bi_keys : ∀ h, is_Some (g_visited st !! h) → h ∈ g_processing_list st;
  bi_reach : ∀ h, h ∈ g_processing_list st → reachable heads cs0 h;
  bi_queue : ∃ enq, g_processing_list st = heads ++ enq ∧ NoDup enq ∧
               ∀ h, h ∈ enq → is_Some (g_visited st !! h) ∧ has cs0 h;
  bi_closed : ∀ h, g_visited st !! h = Some true →
               has cs0 h ∧ ∀ p, p ∈ parents_of cs0 h → is_Some (g_visited st !! p) ∧ has cs0 p;
  bi_children : ∀ p c, count c (children_of (g_commits st) p)
               = if decide (g_visited st !! c = Some true) then count p (parents_of cs0 c) else 0;
  bi_roots : NoDup (g_root_commits st) ∧
             ∀ h, h ∈ g_root_commits st ↔ g_visited st !! h = Some true ∧ parents_of cs0 h = []
}.

(** What [topological_sort] relies on, for a set [reach] of hashes. *)
Record graph_ok (reach : string → Prop) (cs : list CommitObject) (roots : list string)
  : Prop := mkGraphOk {
  go_has : ∀ h, reach h → has cs h;
  go_parents : ∀ c p, reach c → p ∈ parents_of cs c → reach p;
  go_children : ∀ p c, reach p → c ∈ children_of cs p → reach c;
  go_edges : ∀ p c, reach p → reach c →
             count c (children_of cs p) = count p (parents_of cs c);
  go_roots_NoDup : NoDup roots;
  go_roots : ∀ h, h ∈ roots ↔ reach h ∧ parents_of cs h = []
}.

(** Between two rounds of the queue loop of [topological_sort]. *)
Record sort_inv (reach : string → Prop) (cs_in : list CommitObject)
    (i : nat) (st : sort_state) : Prop := mkSortInv {
  si_index : i ≤ length (s_processing_list st);
  si_static : static <$> s_commits st = static <$> cs_in;
  si_sorted : s_sorted_list st = take i (s_processing_list st);
  si_NoDup : NoDup (s_processing_list st);
  si_reach : ∀ h, h ∈ s_processing_list st → reach h;
  si_temp : ∀ c q, reach c →
    count q (temp_of (s_commits st) c)
    = if decide (q ∈ take i (s_processing_list st)) then 0
      else count q (parents_of cs_in c);
  si_queue : ∀ c, reach c → c ∈ s_processing_list st ↔ temp_of (s_commits st) c = [];
  si_order : ∀ j c q, s_processing_list st !! j = Some c →
    q ∈ parents_of cs_in c → q ∈ take j (s_processing_list st);
  si_stderr : s_stderr st = []
}.

(** Inside a round: [P] has been popped and [rem] are its children still
    to be handled. *)
Record release_inv (reach : string → Prop) (cs_in : list CommitObject)
    (i : nat) (P : string) (rem : list string) (st : sort_state)
  : Prop := mkReleaseInv {
  ri_at : s_processing_list st !! i = Some P;
  ri_static : static <$> s_commits st = static <$> cs_in;
  ri_sorted : s_sorted_list st = take (S i) (s_processing_list st);
  ri_NoDup : NoDup (s_processing_list st);
  ri_reach : ∀ h, h ∈ s_processing_list st → reach h;
  ri_rem : ∀ c, c ∈ rem → reach c;
  ri_temp : ∀ c q, reach c →
    count q (temp_of (s_commits st) c)
    = if decide (q ∈ take i (s_processing_list st)) then 0
      else if decide (q = P) then count c rem
      else count q (parents_of cs_in c);
  ri_queue : ∀ c, reach c → c ∈ s_processing_list st ↔ temp_of (s_commits st) c = [];
  ri_order : ∀ j c q, s_processing_list st !! j = Some c →
    q ∈ parents_of cs_in c → q ∈ take j (s_processing_list st);
  ri_stderr : s_stderr st = []
}.

(** *** The text of a break *)

(** The two marker lines of a break: the parents closed by [=] and the
    empty line after them; [=] opening the children. *)
Definition parents_marker (c : CommitObject) : string :=
  String.concat " " (parents c) +:+ "=" +:+ LF +:+ LF.
Definition children_marker (c : CommitObject) : string :=
  "=" +:+ String.concat " " (children c) +:+ LF.

(** *** Graphs used as examples *)

(** The linear chain of the end-to-end scenario. *)
Definition chain3 : list CommitObject :=
  [new_commit "A" []; new_commit "B" ["A"]; new_commit "C" ["B"]].

(** The chain A <- B <- C as [build_commit_graph] leaves it. *)
Definition chain3_built : list CommitObject :=
  [mkCommit "A" [] ["B"] []; mkCommit "B" ["A"] ["C"] []; mkCommit "C" ["B"] [] []].

(** A numbering of the chain that grows from parent to child. *)
Definition chain3_rank (h : string) : nat :=
  if decide (h = "A") then 0 else if decide (h = "B") then 1 else 2.

(** Two commits that list each other as parent. *)
Definition cycle2 : list CommitObject :=
  [new_commit "A" ["B"]; new_commit "B" ["A"]].
Definition cycle2_built : list CommitObject :=
  [mkCommit "A" ["B"] ["B"] []; mkCommit "B" ["A"] ["A"] []].

(** A merge commit M of B and C, both children of A. *)
Definition diamond : list CommitObject :=
  [new_commit "A" []; new_commit "B" ["A"]; new_commit "C" ["A"];
   new_commit "M" ["B"; "C"]].
Definition diamond_built : list CommitObject :=
  [mkCommit "A" [] ["B"; "C"] []; mkCommit "B" ["A"] ["M"] [];
   mkCommit "C" ["A"] ["M"] []; mkCommit "M" ["B"; "C"] [] []].

(** *** The pruning loop, as a function of the list *)

(** What the index-based loop of [remove_unvisited_commits] amounts to on
    commits with distinct hashes: an unvisited commit is dropped, and the
    commit after it is kept without being looked at. *)
Fixpoint skip_prune (visited : gmap string bool) (commits : list CommitObject)
  : list CommitObject :=
  match commits with
  | [] => []
  | commit :: rest =>
      if not_in_visited visited commit
      then match rest with
           | [] => []
           | passed_over :: rest' => passed_over :: skip_prune visited rest'
           end
      else commit :: skip_prune visited rest
  end.

(** No commit missing from [visited] comes right after another one. *)
Definition unvisited_apart (visited : gmap string bool) (commits : list CommitObject)
  : Prop :=
  ∀ i c d, commits !! i = Some c → commits !! S i = Some d →
           not_in_visited visited c = true → not_in_visited visited d = false.

(** *** Branch files and object files *)

(** The paths recorded under a hash; none when the hash is no key. *)
Definition paths_under (branches : list (string * list string)) (h : string) : list string :=
  default [] (branches_get branches h).

(** The paths of the files that hold hash [h], in the order of the walk. *)
Definition files_with (files : list (string * string)) (h : string) : list string :=
  (filter (λ file, file.2 = h) files).*1.

(** The byte [a] does not occur in [s]. *)
Fixpoint without_byte (a : ascii) (s : string) : bool :=
  match s with
  | EmptyString => true
  | String b rest => negb (bool_decide (b = a)) && without_byte a rest
  end.

(** [s] starts with a byte that begins a character, if it starts at all. *)
Definition starts_a_character (s : string) : bool :=
  match s with
  | EmptyString => true
  | String a _ => negb (is_continuation a)
  end.

Definition NUL : string := String "000"%char "".

(** The bytes of a commit object as Git writes them: the header, a NUL
    byte, the tree, one line for each parent, and from the author line on
    whatever follows. *)
Definition commit_object_bytes (size tree : string) (ps : list string) (rest : string)
  : string :=
  "commit " +:+ size +:+ NUL +:+ "tree " +:+ tree +:+ LF
  +:+ foldr (λ p text, "parent " +:+ p +:+ LF +:+ text) ("author " +:+ rest) ps.

(** *** More inputs used as examples *)

(** Three commits of which only the first is reachable from a branch on A,
    and the dictionary the traversal leaves for them. *)
Definition lone_head : list CommitObject :=
  [new_commit "A" []; new_commit "X" []; new_commit "Y" []].
Definition lone_head_visited : gmap string bool := {["A" := true]}.

(** The same with a reachable commit between the two unreachable ones. *)
Definition apart : list CommitObject :=
  [new_commit "X" []; new_commit "A" []; new_commit "Y" []].

(** A decoder for the examples: it accepts bytes below 128 only. *)
Fixpoint ascii_only (s : string) : bool :=
  match s with
  | EmptyString => true
  | String a rest => (nat_of_ascii a <? 128) && ascii_only rest
  end.

(** A commit object with two parents and a message, and a blob. *)
Definition sample_commit : string :=
  commit_object_bytes "200" "9a" ["p1"; "p2"]
    ("me" +:+ LF +:+ LF +:+ "parent of all bugs" +:+ LF).
Definition sample_blob : string := "blob 3" +:+ NUL +:+ "abc".

(** ** Facts about the Python primitives *)

Section py_facts.
Implicit Types (x y : string) (l k : list string).

Lemma count_app x l k : count x (l ++ k) = count x l + count x k.
Proof. induction l as [|z l IH]; simpl; [done | rewrite IH; lia]. Qed.

Lemma count_pos x l : 0 < count x l ↔ x ∈ l.
Proof.
  induction l as [|z l IH]; simpl.
  - split; [lia | by intros ?%elem_of_nil].
  - rewrite elem_of_cons. destruct (decide (z = x)) as [->|Hne].
    + split; [auto | lia].
    + rewrite <- IH. split; [intros; right; lia | intros [?|?]; [congruence | lia]].
Qed.

Lemma count_zero x l : count x l = 0 ↔ x ∉ l.
Proof. rewrite <- count_pos. lia. Qed.

Lemma count_nil_iff l : l = [] ↔ ∀ x, count x l = 0.
Proof.
  split; [by intros -> | ].
  destruct l as [|z l]; [done | intros H].
  specialize (H z). simpl in H. destruct (decide (z = z)); [lia | done].
Qed.

Lemma count_NoDup l : NoDup l ↔ ∀ x, count x l ≤ 1.
Proof.
  induction l as [|z l IH]; simpl.
  - split; [lia | constructor].
  - rewrite NoDup_cons, IH. split.
    + intros [Hz Hl] x. destruct (decide (z = x)) as [->|]; [|apply Hl].
      apply count_zero in Hz. lia.
    + intros H. split.
      * apply count_zero. specialize (H z). destruct (decide (z = z)); [lia | done].
      * intros x. specialize (H x). lia.
Qed.

Lemma list_remove_None x l : list_remove x l = None ↔ x ∉ l.
Proof.
  induction l as [|z l IH]; simpl.
  - split; [intros _; apply not_elem_of_nil | done].
  - rewrite not_elem_of_cons. destruct (decide (z = x)) as [->|Hne].
    + split; [done | intros [? _]; done].
    + destruct (list_remove x l).
      * split; [done | intros [_ H]; by apply IH in H].
      * split; [intros _; split; [congruence | by apply IH] | done].
Qed.

Lemma list_remove_count x l k y :
  list_remove x l = Some k →
  count y l = count y k + (if decide (x = y) then 1 else 0).
Proof.
  revert k. induction l as [|z l IH]; simpl; intros k; [done|].
  destruct (decide (z = x)) as [->|Hne].
  - intros [= ->]. lia.
  - destruct (list_remove x l) as [k'|]; [|done].
    intros [= <-]. simpl. rewrite (IH k' eq_refl). lia.
Qed.

Lemma list_remove_Some x l : x ∈ l → ∃ k, list_remove x l = Some k.
Proof.
  intros Hx. destruct (list_remove x l) eqn:E; [eauto|].
  by apply list_remove_None in E.
Qed.

End py_facts.

(** ** The store: lookups and updates by hash *)

Section store_facts.
Implicit Types (c : CommitObject) (cs : list CommitObject) (h : string).

Lemma commit_eq_true c h : commit_eq c h = true ↔ commit_hash c = h.
Proof. unfold commit_eq. rewrite bool_decide_eq_true. split; congruence. Qed.

Lemma commit_eq_false c h : commit_eq c h = false ↔ commit_hash c ≠ h.
Proof. unfold commit_eq. rewrite bool_decide_eq_false. split; congruence. Qed.

Lemma grab_Some cs h c :
  grab_corresponding_commit cs h = Some c → c ∈ cs ∧ commit_hash c = h.
Proof.
  induction cs as [|d cs IH]; simpl; [done|].
  destruct (commit_eq d h) eqn:E.
  - intros [= ->]. apply commit_eq_true in E. split; [left | done].
  - intros H. destruct (IH H). split; [by right | done].
Qed.

Lemma grab_None cs h : grab_corresponding_commit cs h = None ↔ h ∉ hashes cs.
Proof.
  unfold hashes. induction cs as [|d cs IH]; simpl.
  - split; [intros _; apply not_elem_of_nil | done].
  - rewrite not_elem_of_cons. destruct (commit_eq d h) eqn:E.
    + apply commit_eq_true in E. split; [done | intros [? _]; congruence].
    + apply commit_eq_false in E. rewrite IH. split; [split; [congruence | done] | tauto].
Qed.

Lemma has_hashes cs h : has cs h ↔ h ∈ hashes cs.
Proof.
  unfold has. destruct (grab_corresponding_commit cs h) eqn:E.
  - split; [intros _ | eauto].
    destruct (decide (h ∈ hashes cs)) as [|Hn]; [done|].
    apply grab_None in Hn. congruence.
  - apply grab_None in E. split; [by intros [? ?] | done].
Qed.

Lemma grab_NoDup cs c :
  NoDup (hashes cs) → c ∈ cs → grab_corresponding_commit cs (commit_hash c) = Some c.
Proof.
  unfold hashes. induction cs as [|d cs IH]; simpl; [by intros _ ?%elem_of_nil|].
  rewrite NoDup_cons, elem_of_cons. intros [Hd Hnd] [->|Hc].
  - by rewrite (proj2 (commit_eq_true d (commit_hash d)) eq_refl).
  - destruct (commit_eq d (commit_hash c)) eqn:E; [|auto].
    apply commit_eq_true in E. exfalso. apply Hd. rewrite E.
    apply list_elem_of_fmap. eauto.
Qed.

Section update.
Context (f : CommitObject → CommitObject).
Hypothesis f_hash : ∀ c, commit_hash (f c) = commit_hash c.

Lemma grab_update cs h h' :
  grab_corresponding_commit (update_commit h f cs) h'
  = if decide (h' = h) then f <$> grab_corresponding_commit cs h
    else grab_corresponding_commit cs h'.
Proof.
  induction cs as [|d cs IH]; simpl; [by destruct (decide (h' = h))|].
  destruct (commit_eq d h) eqn:E; simpl.
  - apply commit_eq_true in E. destruct (decide (h' = h)) as [->|Hne].
    + by rewrite (proj2 (commit_eq_true (f d) h)) by (by rewrite f_hash).
    + rewrite (proj2 (commit_eq_false (f d) h')), (proj2 (commit_eq_false d h'));
        rewrite ?f_hash; congruence.
  - rewrite IH. destruct (commit_eq d h') eqn:E'; [|done].
    apply commit_eq_true in E'. apply commit_eq_false in E.
    destruct (decide (h' = h)); [congruence | done].
Qed.

Lemma update_hashes cs h : hashes (update_commit h f cs) = hashes cs.
Proof.
  unfold hashes. induction cs as [|d cs IH]; csimpl; [done|].
  destruct (commit_eq d h); csimpl; [by rewrite f_hash | by rewrite IH].
Qed.

Lemma update_length cs h : length (update_commit h f cs) = length cs.
Proof.
  induction cs as [|d cs IH]; simpl; [done|].
  destruct (commit_eq d h); simpl; [done | by rewrite IH].
Qed.

Lemma update_fmap {B} (g : CommitObject → B) cs h :
  (∀ c, g (f c) = g c) → g <$> update_commit h f cs = g <$> cs.
Proof.
  intros Hg. induction cs as [|d cs IH]; csimpl; [done|].
  destruct (commit_eq d h); csimpl; [by rewrite Hg | by rewrite IH].
Qed.

Lemma has_update cs h h' : has (update_commit h f cs) h' ↔ has cs h'.
Proof. by rewrite !has_hashes, update_hashes. Qed.
End update.

(** Stores with the same records answer the same about hashes and
    parents. *)
Lemma record_grab cs cs' h :
  record <$> cs = record <$> cs' →
  record <$> grab_corresponding_commit cs h
  = record <$> grab_corresponding_commit cs' h.
Proof.
  revert cs'. induction cs as [|d cs IH]; intros [|d' cs']; simpl; try done.
  intros [= Hh Hp Hr]. unfold commit_eq. rewrite Hh.
  destruct (bool_decide (h = commit_hash d')); simpl; [|auto].
  unfold record. by rewrite Hh, Hp.
Qed.

Lemma record_parents_of cs cs' h :
  record <$> cs = record <$> cs' → parents_of cs h = parents_of cs' h.
Proof.
  intros H. apply (record_grab _ _ h) in H. unfold parents_of.
  destruct (grab_corresponding_commit cs h), (grab_corresponding_commit cs' h);
    simpl in *; try done. by injection H.
Qed.

Lemma record_hashes cs cs' : record <$> cs = record <$> cs' → hashes cs = hashes cs'.
Proof.
  intros H. unfold hashes.
  change commit_hash with (fst ∘ record). by rewrite !list_fmap_compose, H.
Qed.

Lemma record_has cs cs' h : record <$> cs = record <$> cs' → has cs h ↔ has cs' h.
Proof. intros H. by rewrite !has_hashes, (record_hashes _ _ H). Qed.

End store_facts.

Section accessor_facts.
Implicit Types (cs : list CommitObject) (h p c : string).

Lemma has_grab cs h : has cs h → ∃ o, grab_corresponding_commit cs h = Some o.
Proof. by intros [o ?]; exists o. Qed.

Lemma not_has_parents cs h : ¬ has cs h → parents_of cs h = [].
Proof.
  unfold has, parents_of. destruct (grab_corresponding_commit cs h); [|done].
  intros []. eauto.
Qed.

Lemma children_of_append cs p h p' :
  has cs p →
  children_of (update_commit p (append_child h) cs) p'
  = if decide (p' = p) then children_of cs p ++ [h] else children_of cs p'.
Proof.
  intros [o Ho]. unfold children_of. rewrite grab_update by done.
  destruct (decide (p' = p)); [|done]. by rewrite Ho.
Qed.

Lemma parents_of_update cs f h h' :
  (∀ o, commit_hash (f o) = commit_hash o) → (∀ o, parents (f o) = parents o) →
  parents_of (update_commit h f cs) h' = parents_of cs h'.
Proof.
  intros Hh Hp. unfold parents_of. rewrite grab_update by done.
  destruct (decide (h' = h)) as [->|]; [|done].
  destruct (grab_corresponding_commit cs h); simpl; [apply Hp | done].
Qed.

Lemma children_of_set_temp cs tp h h' :
  children_of (update_commit h (set_temp_parents tp) cs) h' = children_of cs h'.
Proof.
  unfold children_of. rewrite grab_update by done.
  destruct (decide (h' = h)) as [->|]; [|done].
  by destruct (grab_corresponding_commit cs h).
Qed.

Lemma temp_of_set_temp cs tp h h' :
  has cs h →
  temp_of (update_commit h (set_temp_parents tp) cs) h'
  = if decide (h' = h) then tp else temp_of cs h'.
Proof.
  intros [o Ho]. unfold temp_of. rewrite grab_update by done.
  destruct (decide (h' = h)); [|done]. by rewrite Ho.
Qed.

Lemma temp_of_initialize cs h :
  temp_of (initialize_temp_parents <$> cs) h = parents_of cs h.
Proof.
  unfold temp_of, parents_of. induction cs as [|d cs IH]; csimpl; [done|].
  unfold commit_eq in *. simpl.
  by destruct (bool_decide (h = commit_hash d)).
Qed.

End accessor_facts.

(** ** build_commit_graph: what the traversal establishes *)

Lemma seed_processing_list_keys branches :
  seed_processing_list branches = branches.*1.
Proof.
  unfold seed_processing_list.
  enough (∀ acc, fold_left (λ pl (b : string * list string), pl ++ [b.1]) branches acc
                 = acc ++ branches.*1) as H by apply (H []).
  induction branches as [|b bs IH]; intros acc; csimpl.
  - by rewrite app_nil_r.
  - by rewrite IH, <- app_assoc.
Qed.

Lemma visit_parents_spec h ps : ∀ V L cs R st',
  visit_parents h ps (mkGraph V L cs R) = Ok st' →
  (∀ p, p ∈ ps → has cs p) ∧
  record <$> g_commits st' = record <$> cs ∧
  g_root_commits st' = R ∧
  (∀ k, g_visited st' !! k
        = match V !! k with
          | Some b => Some b
          | None => if decide (k ∈ ps) then Some false else None
          end) ∧
  (∃ new, g_processing_list st' = L ++ new ∧ NoDup new ∧
          ∀ k, k ∈ new ↔ k ∈ ps ∧ V !! k = None) ∧
  (∀ p x, count x (children_of (g_commits st') p)
          = count x (children_of cs p) + (if decide (x = h) then count p ps else 0)).
Proof.
  induction ps as [|a ps IH]; intros V L cs R st'; simpl.
  - intros [= <-]; simpl. split_and!; try done.
    + by intros p ?%elem_of_nil.
    + intros k. by destruct (V !! k).
    + exists []. rewrite app_nil_r. split_and!; [done | constructor | ].
      intros k. split; [by intros ?%elem_of_nil | by intros [?%elem_of_nil _]].
    + intros p x. destruct (decide (x = h)); lia.
  - unfold visit_parent; simpl.
    destruct (V !! a) as [b|] eqn:Ea; simpl;
      (destruct (grab_corresponding_commit cs a) as [o|] eqn:Eg; [|done]);
      intros H; apply IH in H as (Hhas & Hrec & Hroot & HV & (new & HL & Hnd & Hnew) & Hch);
      assert (has cs a) as Ha by (by exists o).
    + split_and!; [ | | done | | | ].
      * intros p [->|Hp]%elem_of_cons; [done|]. by eapply has_update, Hhas.
      * rewrite Hrec. by apply update_fmap.
      * intros k. rewrite HV. destruct (V !! k) eqn:Ek; [done|].
        assert (k ≠ a) by congruence.
        destruct (decide (k ∈ ps)), (decide (k ∈ a :: ps)); set_solver.
      * exists new. split_and!; [done..|].
        intros k. rewrite Hnew. split; [set_solver|].
        intros [[->|?]%elem_of_cons Hk]; [congruence | auto].
      * intros p x. rewrite Hch, children_of_append by done. simpl.
        destruct (decide (p = a)) as [->|Hne].
        -- rewrite count_app. simpl. destruct (decide (a = a)); [|done].
           destruct (decide (h = x)), (decide (x = h)); try congruence; lia.
        -- destruct (decide (a = p)); [congruence | done].
    + split_and!; [ | | done | | | ].
      * intros p [->|Hp]%elem_of_cons; [done|]. by eapply has_update, Hhas.
      * rewrite Hrec. by apply update_fmap.
      * intros k. rewrite HV. destruct (decide (k = a)) as [->|Hne].
        -- rewrite lookup_insert_eq, Ea. rewrite decide_True by set_solver. done.
        -- rewrite lookup_insert_ne by done. destruct (V !! k); [done|].
           destruct (decide (k ∈ ps)), (decide (k ∈ a :: ps)); set_solver.
      * exists (a :: new). split_and!.
        -- by rewrite HL, <- app_assoc.
        -- constructor; [|done]. intros [_ Hk]%Hnew. by rewrite lookup_insert_eq in Hk.
        -- intros k. rewrite elem_of_cons, Hnew. destruct (decide (k = a)) as [->|Hne].
           ++ split; [intros _; split; [set_solver | done] | auto].
           ++ rewrite lookup_insert_ne by done. set_solver.
      * intros p x. rewrite Hch, children_of_append by done. simpl.
        destruct (decide (p = a)) as [->|Hne].
        -- rewrite count_app. simpl. destruct (decide (a = a)); [|done].
           destruct (decide (h = x)), (decide (x = h)); try congruence; lia.
        -- destruct (decide (a = p)); [congruence | done].
Qed.

Lemma fresh_children_of cs p : fresh cs → children_of cs p = [].
Proof.
  intros Hf. unfold children_of.
  destruct (grab_corresponding_commit cs p) as [o|] eqn:E; [|done].
  apply grab_Some in E as [Ho _]. unfold fresh in Hf. rewrite Forall_forall in Hf.
  by apply Hf.
Qed.

Section build.
Context (heads : list string) (cs0 : list CommitObject).

Lemma build_inv_init : fresh cs0 → build_inv heads cs0 0 (mkGraph ∅ heads cs0 []).
Proof.
  intros Hfresh. split; simpl.
  - lia.
  - done.
  - intros h. rewrite lookup_empty, take_0. split; [done | by intros ?%elem_of_nil].
  - intros h. rewrite lookup_empty. by intros [? ?].
  - intros h. apply reach_head.
  - exists []. rewrite app_nil_r. split_and!; [done | constructor | by intros h ?%elem_of_nil].
  - intros h. by rewrite lookup_empty.
  - intros p c. rewrite fresh_children_of, lookup_empty by done. simpl.
    by destruct (decide (None = Some true)).
  - split; [constructor|]. intros h. rewrite lookup_empty.
    split; [by intros ?%elem_of_nil | by intros [? _]].
Qed.

Lemma build_inv_skip i st h :
  build_inv heads cs0 i st → g_processing_list st !! i = Some h →
  g_visited st !! h = Some true → build_inv heads cs0 (S i) st.
Proof.
  intros [] Hi Hv. split; try done.
  { by eapply lookup_lt_Some. }
  intros k. rewrite (take_S_r _ _ _ Hi), elem_of_app, list_elem_of_singleton, <- bi_done0.
  split; [auto | intros [?| ->]; done].
Qed.

Lemma build_inv_visit i V L cs R h c st' :
  build_inv heads cs0 i (mkGraph V L cs R) → L !! i = Some h → V !! h ≠ Some true →
  grab_corresponding_commit cs h = Some c →
  visit_parents h (parents c)
    (mkGraph (<[h := true]> V) L cs
             (match parents c with [] => R ++ [h] | _ => R end)) = Ok st' →
  build_inv heads cs0 (S i) st'.
Proof.
  intros [_ Hrec Hdone Hkeys Hreach (enq & HL & Hnd & Henq) Hclosed Hch [HRnd HR]]
    Hi Hv Hg Hvp. simpl in *.
  apply visit_parents_spec in Hvp
    as (Hhas & Hrec' & Hroot & HV & (new & HL' & Hnd' & Hnew) & Hch').
  assert (parents c = parents_of cs0 h) as Hpar.
  { rewrite <- (record_parents_of cs cs0) by done. unfold parents_of. by rewrite Hg. }
  assert (has cs0 h) as Hh.
  { apply (record_has cs cs0); [done | by exists c]. }
  assert (h ∈ L) as HhL by (by eapply list_elem_of_lookup_2).
  assert (i < length L) as Hlt by (by eapply lookup_lt_Some).
  assert (∀ k, g_visited st' !! k = Some true ↔ k = h ∨ V !! k = Some true) as Htrue.
  { intros k. rewrite HV. destruct (decide (k = h)) as [->|Hne];
      [rewrite lookup_insert_eq | rewrite lookup_insert_ne by done];
      simpl; [naive_solver|].
    destruct (V !! k) as [b|]; [naive_solver|]. case_decide; naive_solver. }
  assert (∀ k, is_Some (g_visited st' !! k) ↔ k = h ∨ is_Some (V !! k) ∨ k ∈ parents c) as Hkey.
  { intros k. rewrite HV. destruct (decide (k = h)) as [->|Hne];
      [rewrite lookup_insert_eq | rewrite lookup_insert_ne by done];
      simpl; [naive_solver|].
    destruct (V !! k) as [b|]; [naive_solver|].
    case_decide; naive_solver. }
  split; simpl.
  - rewrite HL', length_app. lia.
  - by rewrite Hrec'.
  - intros k. rewrite Htrue, HL', take_app_le by lia.
    rewrite (take_S_r _ _ _ Hi), elem_of_app, list_elem_of_singleton, <- Hdone. tauto.
  - intros k [->|[Hk|Hk]]%Hkey; rewrite HL', elem_of_app; [auto | auto |].
    destruct (decide (k = h)) as [->|Hne]; [auto|].
    destruct (V !! k) eqn:Ek; [left; apply Hkeys; by rewrite Ek|].
    right. apply Hnew. by rewrite lookup_insert_ne.
  - intros k. rewrite HL', elem_of_app. intros [Hk|[Hk _]%Hnew]; [auto|].
    apply (reach_parent _ _ h); [auto | by rewrite <- Hpar].
  - exists (enq ++ new). split_and!.
    + by rewrite HL', HL, <- app_assoc.
    + apply NoDup_app. split_and!; [done | | done].
      intros k Hk [_ Hk']%Hnew. apply Henq in Hk as [[b Hk] _].
      destruct (decide (k = h)) as [->|Hne];
        [by rewrite lookup_insert_eq in Hk' | rewrite lookup_insert_ne in Hk' by done; congruence].
    + intros k [Hk|Hk]%elem_of_app.
      * apply Henq in Hk as [? ?]. split; [apply Hkey; auto | done].
      * apply Hnew in Hk as [Hk _]. split; [apply Hkey; auto|].
        apply (record_has cs cs0); auto.
  - intros k [->|Hk]%Htrue.
    + split; [done|]. intros p Hp. rewrite <- Hpar in Hp.
      split; [apply Hkey; auto | apply (record_has cs cs0); auto].
    + destruct (Hclosed k Hk) as [? Hp]. split; [done|].
      intros p [? ?]%Hp. split; [apply Hkey; auto | done].
  - intros p x. rewrite Hch', Hch.
    destruct (decide (x = h)) as [->|Hne].
    + rewrite decide_False by done. rewrite decide_True by (apply Htrue; auto).
      by rewrite Hpar.
    + destruct (decide (V !! x = Some true)) as [Hx|Hx].
      * rewrite decide_True by (apply Htrue; auto). lia.
      * rewrite decide_False; [lia|]. intros [?|?]%Htrue; done.
  - rewrite Hroot. assert (h ∉ R) as HhR by (intros [? _]%HR; done).
    destruct (parents c) eqn:Ep.
    + split.
      * apply NoDup_app. split_and!; [done | | apply NoDup_singleton].
        intros k Hk ->%list_elem_of_singleton. done.
      * intros k. rewrite elem_of_app, list_elem_of_singleton, HR, Htrue.
        split; [intros [[? ?]| ->]; auto | intros [[->|?] ?]; auto].
    + split; [done|]. intros k. rewrite HR, Htrue.
      split; [intros [? ?]; auto | intros [[->|?] ?]; [congruence | auto]].
Qed.

Lemma visit_parents_raise h ps : ∀ st e,
  visit_parents h ps st = Raise e → ∃ p, p ∈ ps ∧ ¬ has (g_commits st) p.
Proof.
  induction ps as [|a ps IH]; intros st e; simpl; [done|].
  unfold visit_parent.
  destruct (g_visited st !! a); simpl;
    (destruct (grab_corresponding_commit (g_commits st) a) as [o|] eqn:Eg;
     [ intros (p & Hp & Hn)%IH; simpl in Hn; exists p; split; [by right|];
       intros Hp'; apply Hn; by apply has_update
     | intros _; exists a; split; [by left|]; intros [? ?]; congruence ]).
Qed.

Lemma build_inv_bound i st :
  build_inv heads cs0 i st → length (g_processing_list st) ≤ length heads + length cs0.
Proof.
  intros [_ _ _ _ _ (enq & -> & Hnd & Henq) _ _ _].
  rewrite length_app. apply Nat.add_le_mono_l.
  rewrite <- (length_fmap commit_hash cs0). apply submseteq_length, NoDup_submseteq; [done|].
  intros h [_ Hh]%Henq. by apply has_hashes.
Qed.

(** The loop ends: no amount of input makes it run out of steps. *)
Lemma build_loop_total fuel : ∀ i st,
  build_inv heads cs0 i st → length heads + length cs0 < fuel + i →
  build_loop fuel i st ≠ None.
Proof.
  induction fuel as [|fuel IH]; intros i [V L cs R] Hinv Hfuel; simpl.
  - pose proof (build_inv_bound _ _ Hinv) as Hb. simpl in Hb.
    destruct Hinv as [Hidx _ _ _ _ _ _ _ _]. simpl in *. lia.
  - destruct (L !! i) as [h|] eqn:Hi; [|done].
    assert (V !! h = Some true ∨ V !! h ≠ Some true) as [Hv|Hv]
      by (destruct (V !! h) as [[]|]; auto).
    + rewrite Hv. apply IH; [by eapply build_inv_skip | lia].
    + assert (∀ X Y : option (result graph_state),
                match V !! h with Some true => X | _ => Y end = Y) as ->
        by (intros; by destruct (V !! h) as [[]|]).
      destruct (grab_corresponding_commit cs h) as [c|] eqn:Hg; [|done].
      destruct (visit_parents _ _ _) as [st1|e] eqn:Hvp; [|done].
      apply IH; [by eapply (build_inv_visit i V L cs R h c) | lia].
Qed.

Lemma build_loop_ok fuel : ∀ i st st',
  build_inv heads cs0 i st → build_loop fuel i st = Some (Ok st') →
  ∃ i', build_inv heads cs0 i' st' ∧ length (g_processing_list st') ≤ i'.
Proof.
  induction fuel as [|fuel IH]; intros i [V L cs R] st' Hinv; simpl; [done|].
  destruct (L !! i) as [h|] eqn:Hi.
  - assert (V !! h = Some true ∨ V !! h ≠ Some true) as [Hv|Hv]
      by (destruct (V !! h) as [[]|]; auto).
    + rewrite Hv. apply IH. by eapply build_inv_skip.
    + assert (∀ X Y : option (result graph_state),
                match V !! h with Some true => X | _ => Y end = Y) as ->
        by (intros; by destruct (V !! h) as [[]|]).
      destruct (grab_corresponding_commit cs h) as [c|] eqn:Hg; [|done].
      destruct (visit_parents _ _ _) as [st1|e] eqn:Hvp; [|done].
      apply IH. by eapply (build_inv_visit i V L cs R h c).
  - intros [= <-]. exists i. split; [done|]. by apply lookup_ge_None.
Qed.

(** A crash of the loop is an attribute access on a commit that is
    reachable heads cs0 but has no object. *)
Lemma build_loop_raise fuel : ∀ i st e,
  build_inv heads cs0 i st → build_loop fuel i st = Some (Raise e) →
  ∃ h, reachable heads cs0 h ∧ ¬ has cs0 h.
Proof.
  induction fuel as [|fuel IH]; intros i [V L cs R] e Hinv; simpl; [done|].
  destruct (L !! i) as [h|] eqn:Hi; [|done].
  assert (V !! h = Some true ∨ V !! h ≠ Some true) as [Hv|Hv]
    by (destruct (V !! h) as [[]|]; auto).
  - rewrite Hv. apply IH. by eapply build_inv_skip.
  - assert (∀ X Y : option (result graph_state),
              match V !! h with Some true => X | _ => Y end = Y) as ->
      by (intros; by destruct (V !! h) as [[]|]).
    assert (reachable heads cs0 h) as Hr.
    { eapply (bi_reach _ _ _ _ Hinv). simpl. by eapply list_elem_of_lookup_2. }
    pose proof (bi_record _ _ _ _ Hinv) as Hrec. simpl in Hrec.
    destruct (grab_corresponding_commit cs h) as [c|] eqn:Hg.
    + destruct (visit_parents _ _ _) as [st1|e'] eqn:Hvp.
      * apply IH. by eapply (build_inv_visit i V L cs R h c).
      * intros _. apply visit_parents_raise in Hvp as (p & Hp & Hn). simpl in Hn.
        exists p. split.
        -- apply (reach_parent _ _ h); [done|].
           rewrite <- (record_parents_of cs cs0) by done. unfold parents_of. by rewrite Hg.
        -- by rewrite <- (record_has cs cs0).
    + intros _. exists h. split; [done|].
      rewrite <- (record_has cs cs0) by done. intros [? ?]; congruence.
Qed.

(** When the loop has run to the end, the dictionary holds exactly the
    reachable heads cs0 hashes, all marked as visited. *)
Lemma build_inv_final i st :
  build_inv heads cs0 i st → length (g_processing_list st) ≤ i →
  (∀ h, g_visited st !! h = Some true ↔ reachable heads cs0 h) ∧
  (∀ h, is_Some (g_visited st !! h) ↔ reachable heads cs0 h).
Proof.
  intros Hinv Hi.
  assert (∀ h, g_visited st !! h = Some true ↔ h ∈ g_processing_list st) as Hall.
  { intros h. rewrite (bi_done _ _ _ _ Hinv), take_ge by done. done. }
  assert (∀ h, reachable heads cs0 h → h ∈ g_processing_list st) as Hin.
  { intros h. induction 1 as [h Hh|c p _ IH Hp].
    - destruct (bi_queue _ _ _ _ Hinv) as (enq & -> & _). set_solver.
    - apply Hall in IH. destruct (bi_closed _ _ _ _ Hinv c IH) as [_ Hc].
      apply (bi_keys _ _ _ _ Hinv). by apply Hc. }
  split; intros h; (split; [|intros ?%Hin%Hall; eauto]).
  - intros ?%Hall. by apply (bi_reach _ _ _ _ Hinv).
  - intros ?%(bi_keys _ _ _ _ Hinv). by apply (bi_reach _ _ _ _ Hinv).
Qed.

End build.

(** ** remove_unvisited_commits *)

Section prune.
Context (V : gmap string bool).
Implicit Types (c : CommitObject) (cs : list CommitObject) (h : string).

Lemma remove_commit_grab c cs h :
  commit_hash c ≠ h →
  grab_corresponding_commit (remove_commit c cs) h = grab_corresponding_commit cs h.
Proof.
  intros Hne. induction cs as [|d cs IH]; simpl; [done|].
  destruct (commit_eq d (commit_hash c)) eqn:E; simpl.
  - apply commit_eq_true in E.
    by rewrite (proj2 (commit_eq_false d h)) by congruence.
  - by rewrite IH.
Qed.

Lemma remove_commit_sublist c cs : remove_commit c cs `sublist_of` cs.
Proof.
  induction cs as [|d cs IH]; simpl; [done|].
  destruct (commit_eq d (commit_hash c)); [by apply sublist_cons | by apply sublist_skip].
Qed.

Lemma remove_unvisited_loop_grab fuel : ∀ i cs h,
  is_Some (V !! h) →
  grab_corresponding_commit (remove_unvisited_loop fuel i cs V) h
  = grab_corresponding_commit cs h.
Proof.
  induction fuel as [|fuel IH]; intros i cs h Hh; simpl; [done|].
  destruct (cs !! i) as [c|]; [|done].
  unfold not_in_visited. case_bool_decide as Hc; [|by apply IH].
  rewrite IH by done. apply remove_commit_grab. intros <-.
  rewrite Hc in Hh. by destruct Hh.
Qed.

Lemma remove_unvisited_loop_sublist fuel : ∀ i cs,
  remove_unvisited_loop fuel i cs V `sublist_of` cs.
Proof.
  induction fuel as [|fuel IH]; intros i cs; simpl; [done|].
  destruct (cs !! i) as [c|]; [|done].
  destruct (not_in_visited V c); [|apply IH].
  etrans; [apply IH | apply remove_commit_sublist].
Qed.

(** The number of rounds given to the loop is enough: more would not
    change the outcome. *)
Lemma remove_unvisited_loop_fuel fuel : ∀ i cs,
  length cs ≤ fuel + i →
  remove_unvisited_loop (S fuel) i cs V = remove_unvisited_loop fuel i cs V.
Proof.
  induction fuel as [|fuel IH]; intros i cs Hlen.
  - simpl. rewrite (proj2 (lookup_ge_None cs i)) by lia. done.
  - change (remove_unvisited_loop (S (S fuel)) i cs V) with
      (match cs !! i with
       | None => cs
       | Some commit =>
           if not_in_visited V commit
           then remove_unvisited_loop (S fuel) (S i) (remove_commit commit cs) V
           else remove_unvisited_loop (S fuel) (S i) cs V
       end).
    change (remove_unvisited_loop (S fuel) i cs V) with
      (match cs !! i with
       | None => cs
       | Some commit =>
           if not_in_visited V commit
           then remove_unvisited_loop fuel (S i) (remove_commit commit cs) V
           else remove_unvisited_loop fuel (S i) cs V
       end).
    destruct (cs !! i) as [c|]; [|done].
    destruct (not_in_visited V c); rewrite IH; try done; [|lia].
    pose proof (sublist_length _ _ (remove_commit_sublist c cs)). lia.
Qed.

Lemma remove_unvisited_loop_all fuel : ∀ i cs,
  (∀ c, c ∈ cs → is_Some (V !! commit_hash c)) →
  remove_unvisited_loop fuel i cs V = cs.
Proof.
  induction fuel as [|fuel IH]; intros i cs Hall; simpl; [done|].
  destruct (cs !! i) as [c|] eqn:Hi; [|done].
  unfold not_in_visited. case_bool_decide as Hc; [|by apply IH].
  destruct (Hall c) as [b Hb]; [by eapply list_elem_of_lookup_2 | congruence].
Qed.

End prune.

(** ** The graph handed to the sorter *)

(** What [build_commit_graph] returns when it returns: a graph the sorter
    can rely on, whose reachable part has the parents of the input, and
    whose records are a sublist of the input's -- all of them when every
    input commit is reachable. *)
Theorem build_commit_graph_ok branches cs0 cs1 roots :
  fresh cs0 →
  build_commit_graph branches cs0 [] = Some (Ok (cs1, roots)) →
  graph_ok (reachable branches.*1 cs0) cs1 roots ∧
  record <$> cs1 `sublist_of` record <$> cs0 ∧
  (∀ h, reachable branches.*1 cs0 h → parents_of cs1 h = parents_of cs0 h) ∧
  ((∀ c, c ∈ cs0 → reachable branches.*1 cs0 (commit_hash c)) →
   record <$> cs1 = record <$> cs0).
Proof.
  intros Hfresh. unfold build_commit_graph. rewrite seed_processing_list_keys.
  destruct (build_loop _ _ _) as [[st|e]|] eqn:Hloop; [|done..].
  intros [= <- <-].
  eapply build_loop_ok in Hloop as (i & Hinv & Hi); [|by apply build_inv_init].
  destruct (build_inv_final _ _ _ _ Hinv Hi) as [Htrue Hkey].
  unfold remove_unvisited_commits.
  set (cs := g_commits st) in *. set (V := g_visited st) in *.
  pose proof (bi_record _ _ _ _ Hinv) as Hrec. fold cs in Hrec.
  assert (∀ h, reachable branches.*1 cs0 h →
               grab_corresponding_commit (remove_unvisited_loop (length cs) 0 cs V) h
               = grab_corresponding_commit cs h) as Hgrab.
  { intros h Hh. apply remove_unvisited_loop_grab. by apply Hkey. }
  assert (∀ h, reachable branches.*1 cs0 h →
            parents_of (remove_unvisited_loop (length cs) 0 cs V) h = parents_of cs0 h) as Hpar.
  { intros h Hh. rewrite <- (record_parents_of cs cs0) by done.
    unfold parents_of. by rewrite Hgrab. }
  assert (∀ h, reachable branches.*1 cs0 h →
            children_of (remove_unvisited_loop (length cs) 0 cs V) h = children_of cs h) as Hchi.
  { intros h Hh. unfold children_of. by rewrite Hgrab. }
  split_and!.
  - split.
    + intros h Hh. unfold has. rewrite Hgrab by done.
      apply (record_has cs cs0); [done|]. by apply (bi_closed _ _ _ _ Hinv), Htrue.
    + intros c p Hc Hp. rewrite Hpar in Hp by done. by eapply reach_parent.
    + intros p c Hp Hc. rewrite Hchi in Hc by done.
      apply count_pos in Hc. rewrite (bi_children _ _ _ _ Hinv) in Hc. fold V in Hc.
      case_decide as Hv; [by apply Htrue | lia].
    + intros p c Hp Hc. rewrite Hchi, Hpar by done.
      rewrite (bi_children _ _ _ _ Hinv). fold V.
      rewrite decide_True by (by apply Htrue). done.
    + apply (bi_roots _ _ _ _ Hinv).
    + intros h. rewrite (proj2 (bi_roots _ _ _ _ Hinv)). fold V. rewrite Htrue.
      split; intros [Hh Hp]; (split; [done|]); [by rewrite Hpar | by rewrite <- Hpar].
  - rewrite <- Hrec. apply fmap_sublist, remove_unvisited_loop_sublist.
  - done.
  - intros Hall. rewrite <- Hrec. f_equal. apply remove_unvisited_loop_all.
    intros c Hc. apply Hkey.
    assert (commit_hash c ∈ hashes cs0) as Hh.
    { rewrite <- (record_hashes cs cs0) by done. apply list_elem_of_fmap. eauto. }
    apply list_elem_of_fmap in Hh as (c0 & -> & Hc0). by apply Hall.
Qed.

(** The loop of [build_commit_graph] always ends within the bound given
    to it. *)
Theorem build_commit_graph_total branches cs0 :
  fresh cs0 → build_commit_graph branches cs0 [] ≠ None.
Proof.
  intros Hfresh. unfold build_commit_graph. rewrite seed_processing_list_keys.
  destruct (build_loop _ _ _) as [[st|e]|] eqn:Hloop; [done..|].
  exfalso. revert Hloop. apply (build_loop_total branches.*1 cs0).
  - by apply build_inv_init.
  - rewrite length_fmap. lia.
Qed.

(** It raises only when some reachable hash has no commit object. *)
Theorem build_commit_graph_raise branches cs0 e :
  fresh cs0 →
  build_commit_graph branches cs0 [] = Some (Raise e) →
  ∃ h, reachable branches.*1 cs0 h ∧ ¬ has cs0 h.
Proof.
  intros Hfresh. unfold build_commit_graph. rewrite seed_processing_list_keys.
  destruct (build_loop _ _ _) as [[st|e']|] eqn:Hloop; [done| |done].
  intros _. eapply build_loop_raise; [|done]. by apply build_inv_init.
Qed.

(** ** topological_sort on a built graph *)

Section static_facts.
Implicit Types (cs : list CommitObject) (h : string).

Lemma static_record cs cs' : static <$> cs = static <$> cs' → record <$> cs = record <$> cs'.
Proof.
  intros H. change record with ((λ s : string * list string * list string, s.1) ∘ static).
  by rewrite !list_fmap_compose, H.
Qed.

Lemma static_children_of cs cs' h :
  static <$> cs = static <$> cs' → children_of cs h = children_of cs' h.
Proof.
  unfold children_of. revert cs'.
  induction cs as [|d cs IH]; intros [|d' cs']; simpl; try done.
  intros [= Hh Hp Hc Hr]. unfold commit_eq. rewrite Hh.
  destruct (bool_decide (h = commit_hash d')); simpl; auto.
Qed.

Lemma static_initialize cs : static <$> (initialize_temp_parents <$> cs) = static <$> cs.
Proof. rewrite <- list_fmap_compose. by apply list_fmap_ext. Qed.

End static_facts.

Section sort.
Context (reach : string → Prop) (cs_in : list CommitObject) (roots : list string).
Hypothesis G : graph_ok reach cs_in roots.

Lemma NoDup_not_in_take (L : list string) i P :
  NoDup L → L !! i = Some P → P ∉ take i L.
Proof.
  intros Hnd Hi [j Hj]%list_elem_of_lookup.
  apply lookup_take_Some in Hj as [Hj Hlt].
  pose proof (NoDup_lookup _ _ _ _ Hnd Hi Hj). lia.
Qed.

Lemma sort_inv_init : sort_inv reach cs_in 0 (mkSort (initialize_temp_parents <$> cs_in) roots [] []).
Proof.
  split; simpl.
  - lia.
  - apply static_initialize.
  - done.
  - apply G.
  - intros h Hh. by apply (go_roots _ _ _ G).
  - intros c q Hc. by rewrite temp_of_initialize.
  - intros c Hc. rewrite temp_of_initialize, (go_roots _ _ _ G). tauto.
  - intros j c q Hj Hq.
    assert (c ∈ roots) as Hc by (by eapply list_elem_of_lookup_2).
    apply (go_roots _ _ _ G) in Hc as [_ Hc]. rewrite Hc in Hq. by apply elem_of_nil in Hq.
  - done.
Qed.

Lemma release_inv_enter i V L So E P :
  sort_inv reach cs_in i (mkSort V L So E) → L !! i = Some P →
  release_inv reach cs_in i P (children_of V P) (mkSort V L (So ++ [P]) E).
Proof.
  intros [Hidx Hst Hso Hnd Hre Htemp Hq Hord Herr] Hi. simpl in *.
  assert (reach P) as HP by (by eapply Hre, list_elem_of_lookup_2).
  assert (children_of V P = children_of cs_in P) as Hch by (by apply static_children_of).
  split; simpl; try done.
  - by rewrite Hso, (take_S_r _ _ _ Hi).
  - intros c Hc. rewrite Hch in Hc. by eapply (go_children _ _ _ G).
  - intros c q Hc. rewrite Htemp by done. case_decide; [done|].
    case_decide as HqP; [|done]. subst q.
    by rewrite Hch, (go_edges _ _ _ G).
Qed.

Lemma release_inv_exit i P st : release_inv reach cs_in i P [] st → sort_inv reach cs_in (S i) st.
Proof.
  intros [Hi Hst Hso Hnd Hre _ Htemp Hq Hord Herr].
  split; try done.
  - by eapply lookup_lt_Some.
  - intros c q Hc. rewrite Htemp by done. rewrite (take_S_r _ _ _ Hi).
    destruct (decide (q ∈ take i (s_processing_list st))) as [Hin|Hnin].
    + rewrite decide_True by set_solver. done.
    + destruct (decide (q = P)) as [->|Hne].
      * rewrite decide_True by set_solver. done.
      * rewrite decide_False by set_solver. done.
Qed.

Lemma release_inv_step i P c rem st :
  release_inv reach cs_in i P (c :: rem) st →
  ∃ st1, release_child P c st = Ok st1 ∧ release_inv reach cs_in i P rem st1.
Proof.
  destruct st as [V L So E].
  intros [Hi Hst Hso Hnd Hre Hrem Htemp Hq Hord Herr]. simpl in *.
  assert (reach c) as Hc by (apply Hrem; left).
  assert (has V c) as Hhas.
  { apply (record_has V cs_in); [by apply static_record | by apply G]. }
  destruct (has_grab _ _ Hhas) as [cc Hcc].
  assert (temp_of V c = temp_parents cc) as Htc by (unfold temp_of; by rewrite Hcc).
  assert (P ∉ take i L) as HP by (by apply NoDup_not_in_take).
  assert (i < length L) as Hlt by (by eapply lookup_lt_Some).
  assert (P ∈ temp_parents cc) as HPin.
  { apply count_pos. rewrite <- Htc, Htemp by done.
    repeat case_decide; try done; lia. }
  destruct (list_remove_Some _ _ HPin) as [tp Htp].
  unfold release_child; simpl. rewrite Hcc, Htp. eexists; split; [done|].
  assert (c ∉ L) as HcL.
  { intros HcL. apply Hq in HcL; [|done]. rewrite Htc in HcL. rewrite HcL in HPin.
    by apply elem_of_nil in HPin. }
  set (L1 := match tp with [] => L ++ [c] | _ => L end).
  assert (∃ new, L1 = L ++ new ∧ (new = [] ∧ tp ≠ [] ∨ new = [c] ∧ tp = []))
    as (new & HL1 & Hnew).
  { subst L1. destruct tp; [exists [c] | exists []]; rewrite ?app_nil_r; naive_solver. }
  clearbody L1.
  assert (∀ j, j ≤ length L → take j L1 = take j L) as Htake.
  { intros j Hj. by rewrite HL1, take_app_le. }
  assert (∀ q, count q tp
               = if decide (q ∈ take i L) then 0
                 else if decide (q = P) then count c rem
                 else count q (parents_of cs_in c)) as Htp_count.
  { intros q. pose proof (list_remove_count _ _ _ q Htp) as Hrm.
    rewrite <- Htc, Htemp in Hrm by done. simpl in Hrm.
    repeat case_decide; try done; try congruence; lia. }
  split; simpl.
  - rewrite HL1. by apply lookup_app_l_Some.
  - rewrite <- Hst. by apply update_fmap.
  - rewrite Htake by lia. done.
  - rewrite HL1. apply NoDup_app. split_and!; [done| |].
    + intros x Hx. destruct Hnew as [[-> _]|[-> _]]; set_solver.
    + destruct Hnew as [[-> _]|[-> _]]; [constructor | apply NoDup_singleton].
  - intros h. rewrite HL1, elem_of_app. intros [?|Hh]; [auto|].
    destruct Hnew as [[-> _]|[-> _]]; set_solver.
  - intros x Hx. apply Hrem. by right.
  - intros x q Hx. rewrite temp_of_set_temp, Htake by (done || lia).
    destruct (decide (x = c)) as [->|Hne]; [apply Htp_count|].
    rewrite Htemp by done. repeat case_decide; try done; try congruence; lia.
  - intros x Hx. rewrite temp_of_set_temp by done. rewrite HL1, elem_of_app.
    destruct (decide (x = c)) as [->|Hne].
    + destruct Hnew as [[-> ?]|[-> ?]]; set_solver.
    + rewrite <- Hq by done. destruct Hnew as [[-> ?]|[-> ?]]; set_solver.
  - intros j y q Hj Hqy. rewrite HL1 in Hj.
    apply lookup_app_Some in Hj as [Hj|[Hge Hj]].
    + rewrite Htake by (apply Nat.lt_le_incl; by eapply lookup_lt_Some). by eapply Hord.
    + destruct Hnew as [[-> ?]|[-> Htpnil]]; [by rewrite lookup_nil in Hj|].
      apply list_lookup_singleton_Some in Hj as [Hj <-].
      assert (j = length L) as -> by lia.
      rewrite HL1, take_app_length.
      pose proof (Htp_count q) as Hcq. rewrite Htpnil in Hcq. simpl in Hcq.
      destruct (decide (q ∈ take i L)) as [Hin|_].
      { apply elem_of_take in Hin as (k & Hk & _). by eapply list_elem_of_lookup_2. }
      destruct (decide (q = P)) as [->|_]; [by eapply list_elem_of_lookup_2|].
      apply count_pos in Hqy. lia.
  - done.
Qed.

Lemma release_children_ok i P rem : ∀ st,
  release_inv reach cs_in i P rem st →
  ∃ st', release_children P rem st = Ok st' ∧ release_inv reach cs_in i P [] st'.
Proof.
  induction rem as [|c rem IH]; intros st Hinv; simpl; [eauto|].
  destruct (release_inv_step _ _ _ _ _ Hinv) as (st1 & -> & Hinv1). by apply IH.
Qed.

Lemma sort_inv_bound i st :
  sort_inv reach cs_in i st → length (s_processing_list st) ≤ length cs_in.
Proof.
  intros Hinv. rewrite <- (length_fmap commit_hash cs_in).
  apply submseteq_length, NoDup_submseteq; [apply Hinv|].
  intros h Hh. apply has_hashes, G. by apply (si_reach _ _ _ _ Hinv).
Qed.

(** On a built graph the queue loop ends without a crash, having run once
    per entry of the queue. *)
Lemma sort_loop_ok fuel : ∀ i st,
  sort_inv reach cs_in i st → length cs_in < fuel + i →
  ∃ st', sort_loop fuel i st = Some (Ok st') ∧
         sort_inv reach cs_in (length (s_processing_list st')) st'.
Proof.
  induction fuel as [|fuel IH]; intros i [V L So E] Hinv Hfuel.
  - pose proof (sort_inv_bound _ _ Hinv). pose proof (si_index _ _ _ _ Hinv). simpl in *. lia.
  - simpl. destruct (L !! i) as [P|] eqn:Hi.
    + assert (has V P) as Hhas.
      { apply (record_has V cs_in); [apply static_record, Hinv|].
        apply G, (si_reach _ _ _ _ Hinv). simpl. by eapply list_elem_of_lookup_2. }
      destruct (has_grab _ _ Hhas) as [commit Hcommit]. rewrite Hcommit.
      assert (children commit = children_of V P) as ->
        by (unfold children_of; by rewrite Hcommit).
      destruct (release_children_ok i P (children_of V P) (mkSort V L (So ++ [P]) E))
        as (st1 & -> & Hinv1); [by apply release_inv_enter|].
      apply IH; [by eapply release_inv_exit | lia].
    + eexists; split; [done|]. simpl.
      apply lookup_ge_None in Hi. pose proof (si_index _ _ _ _ Hinv) as Hidx. simpl in Hidx.
      by replace (length L) with i by lia.
Qed.

End sort.

(** ** Running longer does not change the answer *)

Lemma sort_loop_mono fuel : ∀ i st r,
  sort_loop fuel i st = Some r → ∀ fuel', fuel ≤ fuel' → sort_loop fuel' i st = Some r.
Proof.
  induction fuel as [|fuel IH]; intros i st r; simpl; [done|].
  intros H [|fuel'] Hle; [lia|]. simpl.
  destruct (s_processing_list st !! i) as [h|]; [|done].
  destruct (grab_corresponding_commit (s_commits st) h) as [c|]; [|done].
  destruct (release_children _ _ _) as [st1|e]; [|done].
  apply (IH _ _ _ H). lia.
Qed.

Lemma topological_sort_mono fuel fuel' commits roots r :
  topological_sort fuel commits roots = Some r → fuel ≤ fuel' →
  topological_sort fuel' commits roots = Some r.
Proof.
  unfold topological_sort. intros H Hle.
  destruct (sort_loop fuel _ _) as [x|] eqn:E; [|done].
  by rewrite (sort_loop_mono _ _ _ _ E _ Hle).
Qed.

(** ** Acyclic and cyclic graphs *)

Section parent_relation.
Context (commits : list CommitObject).
Local Abbreviation R := (is_parent commits).

Lemma is_parent_inv p c :
  R p c → ∃ o, o ∈ commits ∧ commit_hash o = c ∧ p ∈ parents o.
Proof.
  unfold is_parent, parents_of.
  destruct (grab_corresponding_commit commits c) as [o|] eqn:E; simpl.
  - apply grab_Some in E as [? ?]. eauto.
  - by intros ?%elem_of_nil.
Qed.

Lemma tc_last x y : tc R x y → R x y ∨ ∃ z, tc R x z ∧ R z y.
Proof.
  induction 1 as [x y Hxy|x y z Hxy _ [Hyz|(w & Hyw & Hwz)]].
  - by left.
  - right. exists y. split; [by apply tc_once | done].
  - right. exists w. split; [by eapply tc_l | done].
Qed.

Lemma Acc_tc x : Acc R x → Acc (tc R) x.
Proof.
  induction 1 as [x _ IH]. constructor. intros y [Hyx|(z & Hyz & Hzx)]%tc_last.
  - by apply IH.
  - by apply (Acc_inv (IH z Hzx)).
Qed.

(** An acyclic graph has no commit that is its own ancestor. *)
Lemma acyclic_no_cycle h : acyclic commits → ¬ on_cycle commits h.
Proof.
  intros Hacc. unfold on_cycle.
  induction (Acc_tc h (Hacc h)) as [x _ IH]. intros Hx. by apply (IH x Hx).
Qed.

(** A numbering that grows from parent to child shows acyclicity. *)
Lemma acyclic_ranked (rank : string → nat) :
  (∀ c p, c ∈ commits → p ∈ parents c → rank p < rank (commit_hash c)) →
  acyclic commits.
Proof.
  intros Hrank h. remember (rank h) as n eqn:Hn. revert h Hn.
  induction (lt_wf n) as [n _ IH]. intros h ->. constructor.
  intros p (o & Ho & <- & Hp)%is_parent_inv.
  apply (IH (rank p)); [by apply Hrank | done].
Qed.

End parent_relation.

(** ** The sorter on the graph [build_commit_graph] hands over *)

Section sorted.
Context (reach : string → Prop) (cs_in : list CommitObject) (roots : list string).
Hypothesis G : graph_ok reach cs_in roots.

(** Every ancestor of a queued commit sits earlier in the queue. *)
Lemma sort_inv_ancestors i st x y :
  sort_inv reach cs_in i st → tc (is_parent cs_in) x y →
  ∀ j, s_processing_list st !! j = Some y →
  ∃ k, k < j ∧ s_processing_list st !! k = Some x.
Proof.
  intros Hinv. induction 1 as [x y Hxy|x y z Hxy _ IH]; intros j Hj.
  - apply (si_order _ _ _ _ Hinv j y x) in Hj as Hx; [|done].
    apply elem_of_take in Hx as (k & ? & ?). eauto.
  - destruct (IH j Hj) as (k & Hk & Hy).
    apply (si_order _ _ _ _ Hinv k y x) in Hy as Hx; [|done].
    apply elem_of_take in Hx as (k' & ? & ?). exists k'. split; [lia | done].
Qed.

Lemma sort_inv_cycle i st h :
  sort_inv reach cs_in i st → on_cycle cs_in h → h ∉ s_processing_list st.
Proof.
  intros Hinv Hc [j Hj]%list_elem_of_lookup.
  destruct (sort_inv_ancestors _ _ _ _ Hinv Hc j Hj) as (k & Hk & Hk').
  pose proof (NoDup_lookup _ _ _ _ (si_NoDup _ _ _ _ Hinv) Hj Hk'). lia.
Qed.

(** With nothing left to pop, an acyclic graph has all its reachable
    commits in the queue. *)
Lemma sort_inv_complete st :
  sort_inv reach cs_in (length (s_processing_list st)) st →
  acyclic cs_in → ∀ c, reach c → c ∈ s_processing_list st.
Proof.
  intros Hinv Hacc c. induction (Hacc c) as [c _ IH]. intros Hc.
  apply (si_queue _ _ _ _ Hinv); [done|]. apply count_nil_iff. intros q.
  rewrite (si_temp _ _ _ _ Hinv) by done. rewrite firstn_all.
  case_decide as Hq; [done|]. apply count_zero. intros Hqc. apply Hq.
  apply IH; [done|]. by eapply (go_parents _ _ _ G).
Qed.

End sorted.

Lemma hashes_sublist cs cs' :
  record <$> cs `sublist_of` record <$> cs' → NoDup (hashes cs') → NoDup (hashes cs).
Proof.
  intros Hsub Hnd. eapply sublist_NoDup; [exact Hnd|].
  unfold hashes. change commit_hash with (fst ∘ record).
  rewrite !list_fmap_compose. by apply fmap_sublist.
Qed.

Lemma parents_of_entry cs c :
  NoDup (hashes cs) → c ∈ cs → parents_of cs (commit_hash c) = parents c.
Proof. intros Hnd Hc. unfold parents_of. by rewrite grab_NoDup. Qed.

(** C1.  For every acyclic graph that [build_commit_graph] produced and
    whose nodes are all reachable from the branch heads,
    [topological_sort] returns a sequence that lists the reachable hashes
    once each -- so its length is the number of reachable nodes -- and in
    which the parent of every edge of the graph comes before the child. *)
Theorem topological_sort_ancestors_first branches commits commits1 roots :
  fresh commits → NoDup (hashes commits) →
  build_commit_graph branches commits [] = Some (Ok (commits1, roots)) →
  (∀ c, c ∈ commits1 → reachable branches.*1 commits (commit_hash c)) →
  acyclic commits1 →
  ∃ sorted,
    (∀ fuel, length commits1 < fuel →
       ∃ r, topological_sort fuel commits1 roots = Some (Ok r) ∧
            r_outcome r = Return sorted ∧ r_stderr r = []) ∧
    length sorted = length commits1 ∧
    NoDup sorted ∧
    (∀ h, h ∈ sorted ↔ reachable branches.*1 commits h) ∧
    (∀ c p, c ∈ commits1 → p ∈ parents c →
       ∃ i j, sorted !! i = Some p ∧ sorted !! j = Some (commit_hash c) ∧ i < j).
Proof.
  intros Hfresh Hnd Hbuild Hreach Hacc.
  destruct (build_commit_graph_ok _ _ _ _ Hfresh Hbuild) as (G & Hsub & Hpar & _).
  pose proof (hashes_sublist _ _ Hsub Hnd) as Hnd1.
  destruct (sort_loop_ok _ _ _ G (S (length commits1)) 0 _ (sort_inv_init _ _ _ G))
    as (st & Hloop & Hinv); [lia|].
  set (L := s_processing_list st) in *.
  assert (∀ h, h ∈ L ↔ reachable branches.*1 commits h) as HL.
  { intros h. split; [apply (si_reach _ _ _ _ Hinv) | by apply (sort_inv_complete _ _ _ G)]. }
  assert (hashes (s_commits st) = hashes commits1) as Hhashes.
  { apply record_hashes, static_record, Hinv. }
  assert (L ≡ₚ hashes commits1) as Hperm.
  { apply NoDup_Permutation; [apply Hinv | done |]. intros h. rewrite HL. split.
    - intros Hh. by apply has_hashes, G.
    - intros (c & -> & Hc)%list_elem_of_fmap. by apply Hreach. }
  assert (length L = length commits1) as Hlen.
  { rewrite Hperm. unfold hashes. by rewrite length_fmap. }
  assert (s_sorted_list st = L) as Hsorted.
  { rewrite (si_sorted _ _ _ _ Hinv). apply firstn_all. }
  assert (sort_checks st = mkSorted (s_commits st) L [] (Return L)) as Hchecks.
  { unfold sort_checks.
    assert (existsb (λ commit, negb (bool_decide (temp_parents commit = []))) (s_commits st)
            = false) as ->.
    { apply not_true_iff_false. intros (e & He & Hte)%existsb_exists.
      apply list_elem_of_In in He.
      assert (commit_hash e ∈ L) as HeL.
      { rewrite Hperm, <- Hhashes. apply list_elem_of_fmap. eauto. }
      apply (si_queue _ _ _ _ Hinv) in HeL as Htemp; [|by apply HL].
      unfold temp_of in Htemp. rewrite grab_NoDup in Htemp by (by rewrite ?Hhashes).
      simpl in Htemp. rewrite Htemp in Hte. by rewrite bool_decide_eq_true_2 in Hte. }
    rewrite bool_decide_eq_false_2.
    - by rewrite Hsorted, (si_stderr _ _ _ _ Hinv).
    - intros Hne. apply Hne. rewrite Hsorted, Hlen.
      by rewrite <- (length_fmap static), (si_static _ _ _ _ Hinv), length_fmap. }
  exists L. split_and!.
  - intros fuel Hfuel. unfold topological_sort.
    rewrite (sort_loop_mono _ _ _ _ Hloop) by lia. rewrite Hchecks. eauto.
  - done.
  - apply Hinv.
  - done.
  - intros c p Hc Hp.
    assert (commit_hash c ∈ L) as [j Hj]%list_elem_of_lookup by (by apply HL, Hreach).
    rewrite <- (parents_of_entry commits1) in Hp by done.
    apply (si_order _ _ _ _ Hinv j _ p) in Hj as Hq; [|done].
    apply elem_of_take in Hq as (i & Hi & Hlt). eauto.
Qed.

(** What the final checks can add to the error stream. *)
Lemma sort_checks_stderr st :
  r_stderr (sort_checks st) = s_stderr st ∨
  r_stderr (sort_checks st) = s_stderr st ++ [error_cycle] ∨
  r_stderr (sort_checks st) = s_stderr st ++ [error_sort].
Proof.
  unfold sort_checks. destruct (existsb _ _); [auto|].
  case_bool_decide; auto.
Qed.

(** C2.  When the graph handed to [topological_sort] has a commit that is
    reachable from a branch head and is its own ancestor, the sorter lets
    the queue drain, reports the cycle and exits with status 1; the run
    prints no ordering at all. *)
Theorem topological_sort_rejects_cycle branches commits commits1 roots h :
  fresh commits →
  build_commit_graph branches commits [] = Some (Ok (commits1, roots)) →
  reachable branches.*1 commits h →
  on_cycle commits1 h →
  ∀ fuel, length commits1 < fuel →
    (∃ r, topological_sort fuel commits1 roots = Some (Ok r) ∧
          r_outcome r = Exit 1 ∧ r_stderr r = [error_cycle]) ∧
    topo_order_commits fuel branches commits = Some (Finished "" [error_cycle] 1).
Proof.
  intros Hfresh Hbuild Hh Hcycle fuel Hfuel.
  destruct (build_commit_graph_ok _ _ _ _ Hfresh Hbuild) as (G & _).
  destruct (sort_loop_ok _ _ _ G fuel 0 _ (sort_inv_init _ _ _ G))
    as (st & Hloop & Hinv); [lia|].
  assert (sort_checks st
          = mkSorted (s_commits st) (s_processing_list st) [error_cycle] (Exit 1)) as Hchecks.
  { unfold sort_checks.
    assert (existsb (λ commit, negb (bool_decide (temp_parents commit = []))) (s_commits st)
            = true) as ->; [|by rewrite (si_stderr _ _ _ _ Hinv)].
    assert (h ∉ s_processing_list st) as HhL by (by eapply sort_inv_cycle).
    rewrite (si_queue _ _ _ _ Hinv) in HhL by done.
    assert (has (s_commits st) h) as [e He].
    { apply (record_has _ commits1); [apply static_record, Hinv | by apply G]. }
    unfold temp_of in HhL. rewrite He in HhL. simpl in HhL.
    apply existsb_exists. exists e. split.
    - apply list_elem_of_In. by apply grab_Some in He as [? _].
    - by rewrite bool_decide_eq_false_2. }
  assert (topological_sort fuel commits1 roots = Some (Ok (sort_checks st))) as Hsort.
  { unfold topological_sort. by rewrite Hloop. }
  split.
  - eexists. split; [exact Hsort|]. by rewrite Hchecks.
  - unfold topo_order_commits, build_and_sort. rewrite Hbuild, Hsort, Hchecks. done.
Qed.

(** C10.  On a graph made by [build_commit_graph] the sorter always finds
    the popped hash among the waiting parents of each child: the run of
    [topological_sort] ends, and the warning about a nonexisting parent is
    not in what it wrote to the error stream. *)
Theorem topological_sort_never_warns branches commits commits1 roots :
  fresh commits →
  build_commit_graph branches commits [] = Some (Ok (commits1, roots)) →
  ∃ r, (∀ fuel, length commits1 < fuel →
          topological_sort fuel commits1 roots = Some (Ok r)) ∧
       warning_missing_parent ∉ r_stderr r.
Proof.
  intros Hfresh Hbuild.
  destruct (build_commit_graph_ok _ _ _ _ Hfresh Hbuild) as (G & _).
  destruct (sort_loop_ok _ _ _ G (S (length commits1)) 0 _ (sort_inv_init _ _ _ G))
    as (st & Hloop & Hinv); [lia|].
  exists (sort_checks st). split.
  - intros fuel Hfuel. unfold topological_sort.
    by rewrite (sort_loop_mono _ _ _ _ Hloop) by lia.
  - destruct (sort_checks_stderr st) as [->|[->| ->]];
      rewrite (si_stderr _ _ _ _ Hinv); simpl.
    + apply not_elem_of_nil.
    + by intros ?%list_elem_of_singleton.
    + by intros ?%list_elem_of_singleton.
Qed.

(** ** What the sorter changes, on any input *)

Lemma release_child_frame P c st st1 :
  release_child P c st = Ok st1 →
  static <$> s_commits st1 = static <$> s_commits st ∧
  s_sorted_list st1 = s_sorted_list st ∧
  s_processing_list st `prefix_of` s_processing_list st1.
Proof.
  unfold release_child.
  destruct (grab_corresponding_commit (s_commits st) c) as [cc|]; [|done].
  destruct (list_remove P (temp_parents cc)) as [tp|]; intros [= <-]; simpl;
    (split_and!; [by apply update_fmap | done |]).
  - destruct tp; [by apply prefix_app_r | done].
  - destruct (temp_parents cc); [by apply prefix_app_r | done].
Qed.

Lemma release_children_frame P cs : ∀ st st',
  release_children P cs st = Ok st' →
  static <$> s_commits st' = static <$> s_commits st ∧
  s_sorted_list st' = s_sorted_list st ∧
  s_processing_list st `prefix_of` s_processing_list st'.
Proof.
  induction cs as [|c cs IH]; intros st st'; simpl.
  - by intros [= <-].
  - destruct (release_child P c st) as [st1|] eqn:E; [|done].
    intros (H1 & H2 & H3)%IH. apply release_child_frame in E as (E1 & E2 & E3).
    split_and!; [congruence | congruence | by etrans].
Qed.

Lemma sort_loop_frame fuel : ∀ i st st',
  sort_loop fuel i st = Some (Ok st') →
  s_sorted_list st = take i (s_processing_list st) →
  static <$> s_commits st' = static <$> s_commits st ∧
  s_processing_list st `prefix_of` s_processing_list st' ∧
  s_sorted_list st' = s_processing_list st'.
Proof.
  induction fuel as [|fuel IH]; intros i st st'; simpl; [done|].
  destruct (s_processing_list st !! i) as [h|] eqn:Hi.
  - destruct (grab_corresponding_commit (s_commits st) h) as [c|]; [|done].
    destruct (release_children _ _ _) as [st1|] eqn:E; [|done].
    apply release_children_frame in E as (E1 & E2 & E3). simpl in *.
    intros Hloop Hsorted. apply IH in Hloop as (H1 & H2 & H3).
    + split_and!; [congruence | by etrans | done].
    + rewrite E2, Hsorted. destruct E3 as [k ->].
      rewrite take_app_le by (apply lookup_lt_Some in Hi; lia).
      by rewrite (take_S_r _ _ _ Hi).
  - intros [= <-] Hsorted. split_and!; [done..|].
    rewrite Hsorted. apply firstn_all2. by apply lookup_ge_None.
Qed.

(** C8, as the program has it.  [topological_sort] leaves the hash, the
    parents and the children of every commit object as they were; the list
    bound to [root_commits] is the sorter's queue, so it is only extended,
    and on return it holds the whole order.  (The formatter is a function
    of the store: it has nothing to write to.) *)
Theorem topological_sort_frame fuel commits roots r :
  topological_sort fuel commits roots = Some (Ok r) →
  static <$> r_commits r = static <$> commits ∧
  roots `prefix_of` r_root_commits r ∧
  (∀ sorted, r_outcome r = Return sorted → r_root_commits r = sorted).
Proof.
  unfold topological_sort.
  destruct (sort_loop _ _ _) as [[st|]|] eqn:Hloop; [|done..].
  intros [= <-]. apply sort_loop_frame in Hloop as (H1 & H2 & H3); [|done].
  simpl in *. rewrite static_initialize in H1.
  unfold sort_checks. destruct (existsb _ _); [|case_bool_decide]; simpl;
    (split_and!; [done | done |]); try done.
  intros sorted [= <-]. done.
Qed.

(** ** Determinism *)

Lemma build_commit_graph_heads branches1 branches2 commits roots :
  branches1.*1 = branches2.*1 →
  build_commit_graph branches1 commits roots = build_commit_graph branches2 commits roots.
Proof.
  intros Heq. unfold build_commit_graph. rewrite !seed_processing_list_keys, Heq.
  by rewrite <- (length_fmap fst branches1), <- (length_fmap fst branches2), Heq.
Qed.

(** C3.  Two runs of [build_commit_graph] followed by [topological_sort] on
    the same commit objects and the same sequence of branch heads end the
    same way, whatever the branch names and however long each run was
    allowed to take. *)
Theorem build_and_sort_deterministic branches1 branches2 commits fuel1 fuel2 r1 r2 :
  branches1.*1 = branches2.*1 →
  build_and_sort fuel1 branches1 commits = Some r1 →
  build_and_sort fuel2 branches2 commits = Some r2 →
  r1 = r2.
Proof.
  intros Heq. unfold build_and_sort.
  rewrite (build_commit_graph_heads _ _ _ _ Heq).
  destruct (build_commit_graph branches2 commits []) as [[[commits1 roots]|e]|];
    [|congruence..].
  intros H1 H2.
  apply (topological_sort_mono _ (fuel1 `max` fuel2)) in H1; [|lia].
  apply (topological_sort_mono _ (fuel1 `max` fuel2)) in H2; [|lia].
  congruence.
Qed.

(** ** The children lists *)

Lemma build_commit_graph_inv branches cs0 cs1 roots :
  fresh cs0 →
  build_commit_graph branches cs0 [] = Some (Ok (cs1, roots)) →
  ∃ i st, build_inv branches.*1 cs0 i st ∧ length (g_processing_list st) ≤ i ∧
          cs1 = remove_unvisited_commits (g_commits st) (g_visited st) ∧
          roots = g_root_commits st.
Proof.
  intros Hfresh. unfold build_commit_graph. rewrite seed_processing_list_keys.
  destruct (build_loop _ _ _) as [[st|e]|] eqn:Hloop; [|done..].
  intros [= <- <-].
  eapply build_loop_ok in Hloop as (i & Hinv & Hi); [|by apply build_inv_init].
  eauto 10.
Qed.

(** C9, as the program has it.  In the built graph a hash occurs among the
    children of a commit exactly as often as the reachable commit with that
    hash lists it as a parent, and never when that commit is unreachable;
    so a children list has no duplicates when no commit lists a parent
    twice. *)
Theorem children_follow_parent_lists branches commits commits1 roots :
  fresh commits → NoDup (hashes commits) →
  build_commit_graph branches commits [] = Some (Ok (commits1, roots)) →
  ∀ p, p ∈ commits1 →
    (∀ c, reachable branches.*1 commits c →
          count c (children p) = count (commit_hash p) (parents_of commits c)) ∧
    (∀ c, ¬ reachable branches.*1 commits c → c ∉ children p) ∧
    ((∀ c, c ∈ commits → NoDup (parents c)) → NoDup (children p)).
Proof.
  intros Hfresh Hnd Hbuild p Hp.
  destruct (build_commit_graph_inv _ _ _ _ Hfresh Hbuild) as (i & st & Hinv & Hi & -> & _).
  destruct (build_inv_final _ _ _ _ Hinv Hi) as [Htrue _].
  assert (p ∈ g_commits st) as Hp'.
  { eapply elem_of_sublist; [exact Hp|]. apply remove_unvisited_loop_sublist. }
  assert (children p = children_of (g_commits st) (commit_hash p)) as Hch.
  { unfold children_of. rewrite grab_NoDup; [done| |done].
    by rewrite (record_hashes _ commits) by apply Hinv. }
  assert (∀ c, count c (children p)
               = if decide (g_visited st !! c = Some true)
                 then count (commit_hash p) (parents_of commits c) else 0) as Hcount.
  { intros c. rewrite Hch. apply Hinv. }
  split_and!.
  - intros c Hc. rewrite Hcount. by rewrite decide_True by (by apply Htrue).
  - intros c Hc. apply count_zero. rewrite Hcount.
    rewrite decide_False; [done|]. by intros ?%Htrue.
  - intros Hpar. apply count_NoDup. intros c. rewrite Hcount.
    case_decide; [|lia]. apply count_NoDup.
    unfold parents_of. destruct (grab_corresponding_commit commits c) as [o|] eqn:E;
      simpl; [|constructor].
    apply Hpar. by apply grab_Some in E as [? _].
Qed.

(** ** Missing commit objects *)

(** C6, as the program has it.  When a hash reachable from a branch head --
    a head or a parent of a reachable commit -- has no commit object,
    [build_commit_graph] dies of an attribute access on [None]: nobody
    catches the exception, the program writes nothing of its own to either
    stream, and the interpreter ends the run with a traceback. *)
Theorem missing_commit_is_uncaught branches commits h fuel :
  fresh commits →
  reachable branches.*1 commits h → ¬ has commits h →
  ∃ attr,
    build_commit_graph branches commits [] = Some (Raise (AttributeError attr)) ∧
    topo_order_commits fuel branches commits
    = Some (Traceback "" [] (AttributeError attr)).
Proof.
  intros Hfresh Hh Hmiss.
  destruct (build_commit_graph branches commits []) as [[[commits1 roots]|[attr]]|] eqn:Hb.
  - destruct (build_commit_graph_ok _ _ _ _ Hfresh Hb) as (G & Hsub & _).
    exfalso. apply Hmiss. apply has_hashes.
    assert (h ∈ hashes commits1) as Hin by (by apply has_hashes, G).
    revert Hin. unfold hashes. change commit_hash with (fst ∘ record).
    rewrite !list_fmap_compose. intros Hin. eapply elem_of_sublist; [exact Hin|].
    by apply fmap_sublist.
  - exists attr. split; [done|]. unfold topo_order_commits, build_and_sort. by rewrite Hb.
  - by apply build_commit_graph_total in Hb.
Qed.

(** ** The sticky output *)

Lemma append_assoc (a b c : string) : (a +:+ b) +:+ c = a +:+ b +:+ c.
Proof.
  induction a as [|x a IH]; [done|].
  change (String x ((a +:+ b) +:+ c) = String x (a +:+ b +:+ c)). by rewrite IH.
Qed.

Lemma append_nil_r (a : string) : a +:+ "" = a.
Proof.
  induction a as [|x a IH]; [done|].
  change (String x (a +:+ "") = String x a). by rewrite IH.
Qed.

Lemma parents_marker_text c :
  print_end (parents c) "" +:+ print ["=" +:+ LF] = parents_marker c.
Proof.
  unfold parents_marker, print, print_end.
  change (String.concat " " ["=" +:+ LF]) with ("=" +:+ LF).
  by rewrite append_nil_r, !append_assoc.
Qed.

Lemma children_marker_text c :
  print_end ["="] "" +:+ print (children c) = children_marker c.
Proof.
  unfold children_marker, print, print_end.
  change (String.concat " " ["="]) with "=".
  by rewrite append_nil_r.
Qed.

Section sticky.
Context (commits : list CommitObject) (branches : list (string * list string)).

Lemma sticky_round_break prev_empty cur nxt c :
  grab_corresponding_commit commits cur = Some c → nxt ∉ parents c →
  sticky_round commits branches prev_empty cur (Some nxt)
  = ((if prev_empty then children_marker c else "")
       +:+ commit_line branches cur +:+ parents_marker c, true, None).
Proof.
  intros Hc Hn. unfold sticky_round. rewrite Hc.
  rewrite bool_decide_eq_true_2 by done.
  destruct prev_empty; cbv beta iota zeta;
    by rewrite ?children_marker_text, parents_marker_text.
Qed.

Lemma sticky_round_after_break nxt next d :
  grab_corresponding_commit commits nxt = Some d →
  ∃ after flag,
    sticky_round commits branches true nxt next
    = (children_marker d +:+ commit_line branches nxt +:+ after, flag, None).
Proof.
  intros Hd. unfold sticky_round. rewrite Hd. cbv beta iota zeta.
  rewrite children_marker_text.
  destruct next as [n|]; [case_bool_decide|].
  - exists (parents_marker d), true. by rewrite parents_marker_text.
  - exists "", false. by rewrite append_nil_r.
  - exists "", false. by rewrite append_nil_r.
Qed.

Lemma sticky_round_has prev_empty cur nxt :
  has commits cur →
  ∃ out flag, sticky_round commits branches prev_empty cur (Some nxt) = (out, flag, None).
Proof.
  intros [c Hc]. unfold sticky_round. rewrite Hc.
  destruct prev_empty; case_bool_decide; eauto.
Qed.

Lemma sticky_loop_cons prev_empty h rest :
  sticky_loop commits branches prev_empty (h :: rest)
  = match sticky_round commits branches prev_empty h (head rest) with
    | (out, _, Some e) => (out, Some e)
    | (out, prev_empty', None) =>
        let '(out', e) := sticky_loop commits branches prev_empty' rest in
        (out +:+ out', e)
    end.
Proof. reflexivity. Qed.

(** C7.  Wherever the commit printed next is not among the parents of
    the current one, the output has, right after the line of the current
    commit, its parents closed by [=] without a space, then an empty
    line, then [=] followed by the children of the next commit, then the
    line of that commit. *)
Theorem sticky_break_markers pre cur nxt post c d :
  (∀ h, h ∈ pre → has commits h) →
  grab_corresponding_commit commits cur = Some c →
  grab_corresponding_commit commits nxt = Some d →
  nxt ∉ parents c →
  ∃ before after,
    (print_sticky_sorted_order (pre ++ cur :: nxt :: post) commits branches).1
    = before +:+ commit_line branches cur
        +:+ parents_marker c
        +:+ children_marker d
        +:+ commit_line branches nxt +:+ after.
Proof.
  intros Hpre Hc Hd Hn. unfold print_sticky_sorted_order.
  generalize false as prev_empty.
  induction pre as [|a pre IH]; intros prev_empty.
  - rewrite app_nil_l, sticky_loop_cons.
    change (head (nxt :: post)) with (Some nxt).
    rewrite (sticky_round_break prev_empty cur nxt c Hc Hn).
    rewrite sticky_loop_cons.
    destruct (sticky_round_after_break nxt (head post) d Hd) as (after & flag & ->).
    destruct (sticky_loop commits branches flag post) as [out' e].
    exists (if prev_empty then children_marker c else ""), (after +:+ out').
    cbv beta iota zeta. unfold fst. by rewrite !append_assoc.
  - assert (head (pre ++ cur :: nxt :: post) = Some (hd cur pre)) as Hhead
      by (by destruct pre).
    rewrite <- app_comm_cons, sticky_loop_cons, Hhead.
    destruct (sticky_round_has prev_empty a (hd cur pre)) as (out & flag & ->);
      [apply Hpre; by left|].
    destruct (IH (λ h Hh, Hpre h (list_elem_of_further _ _ _ Hh)) flag)
      as (before & after & Heq).
    destruct (sticky_loop commits branches flag (pre ++ cur :: nxt :: post)) as [out' e].
    unfold fst in *. subst out'. exists (out +:+ before), after.
    cbv beta iota zeta. by rewrite !append_assoc.
Qed.

End sticky.

(** ** Concrete graphs *)

(** The two end-to-end scenarios of the documentation: a linear chain,
    and two unrelated roots with a break between them. *)
Example chain3_run :
  topo_order_commits 10 [("C", ["main"])] chain3
  = Some (Finished ("C main" +:+ LF +:+ "B" +:+ LF +:+ "A" +:+ LF) [] 0).
Proof. vm_compute. reflexivity. Qed.

(** Decide a closed decidable proposition by evaluation. *)
Ltac by_evaluation := apply (bool_decide_unpack _); vm_compute; exact I.

(** Split a membership in a literal list into its cases. *)
Ltac list_cases H :=
  repeat (apply elem_of_cons in H as [H|H]; [try subst|]);
  try (by apply elem_of_nil in H).

Example disjoint_run :
  topo_order_commits 10 [("A", ["main"]); ("B", ["other"])]
    [new_commit "A" []; new_commit "B" []]
  = Some (Finished ("B other" +:+ LF +:+ "=" +:+ LF +:+ LF +:+ "=" +:+ LF +:+
                    "A main" +:+ LF) [] 0).
Proof. vm_compute. reflexivity. Qed.

Example chain3_build :
  build_commit_graph [("C", ["main"])] chain3 [] = Some (Ok (chain3_built, ["A"])).
Proof. vm_compute. reflexivity. Qed.

Lemma chain3_fresh : fresh chain3.
Proof. repeat constructor. Qed.

Lemma chain3_NoDup : NoDup (hashes chain3).
Proof. by_evaluation. Qed.

Lemma chain3_reachable c :
  c ∈ chain3_built → reachable ["C"] chain3 (commit_hash c).
Proof.
  assert (reachable ["C"] chain3 "C") as HC by (apply reach_head; by left).
  assert (reachable ["C"] chain3 "B") as HB by (apply (reach_parent _ _ "C"); [done | by left]).
  assert (reachable ["C"] chain3 "A") as HA by (apply (reach_parent _ _ "B"); [done | by left]).
  intros Hc. unfold chain3_built in Hc. list_cases Hc; done.
Qed.

Lemma chain3_acyclic : acyclic chain3_built.
Proof.
  apply (acyclic_ranked _ chain3_rank). intros c p Hc Hp.
  unfold chain3_built in Hc. list_cases Hc; simpl in Hp; list_cases Hp; vm_compute; lia.
Qed.

Lemma topological_sort_ancestors_first_witness :
  ∃ sorted,
    (∀ fuel, length chain3_built < fuel →
       ∃ r, topological_sort fuel chain3_built ["A"] = Some (Ok r) ∧
            r_outcome r = Return sorted ∧ r_stderr r = []) ∧
    length sorted = length chain3_built ∧
    NoDup sorted ∧
    (∀ h, h ∈ sorted ↔ reachable ["C"] chain3 h) ∧
    (∀ c p, c ∈ chain3_built → p ∈ parents c →
       ∃ i j, sorted !! i = Some p ∧ sorted !! j = Some (commit_hash c) ∧ i < j).
Proof.
  exact (topological_sort_ancestors_first [("C", ["main"])] chain3 chain3_built ["A"]
           chain3_fresh chain3_NoDup chain3_build chain3_reachable chain3_acyclic).
Defined.

Example cycle2_build :
  build_commit_graph [("A", ["main"])] cycle2 [] = Some (Ok (cycle2_built, [])).
Proof. vm_compute. reflexivity. Qed.

Lemma cycle2_fresh : fresh cycle2.
Proof. repeat constructor. Qed.

Lemma cycle2_on_cycle : on_cycle cycle2_built "A".
Proof.
  apply (tc_l _ _ "B"); [|apply tc_once]; unfold is_parent; by left.
Qed.

Lemma topological_sort_rejects_cycle_witness :
  (∃ r, topological_sort 3 cycle2_built [] = Some (Ok r) ∧
        r_outcome r = Exit 1 ∧ r_stderr r = [error_cycle]) ∧
  topo_order_commits 3 [("A", ["main"])] cycle2 = Some (Finished "" [error_cycle] 1).
Proof.
  apply (topological_sort_rejects_cycle [("A", ["main"])] cycle2 cycle2_built [] "A"
           cycle2_fresh cycle2_build).
  - apply reach_head. by left.
  - exact cycle2_on_cycle.
  - simpl. lia.
Defined.

Lemma topological_sort_never_warns_witness :
  ∃ r, (∀ fuel, length chain3_built < fuel →
          topological_sort fuel chain3_built ["A"] = Some (Ok r)) ∧
       warning_missing_parent ∉ r_stderr r.
Proof.
  exact (topological_sort_never_warns [("C", ["main"])] chain3 chain3_built ["A"]
           chain3_fresh chain3_build).
Defined.

Lemma build_and_sort_deterministic_witness :
  ∃ r, build_and_sort 10 [("C", ["main"])] chain3 = Some r ∧
       build_and_sort 20 [("C", ["dev"; "release"])] chain3 = Some r.
Proof.
  destruct (build_and_sort 10 [("C", ["main"])] chain3) as [r1|] eqn:E1;
    [|vm_compute in E1; discriminate].
  destruct (build_and_sort 20 [("C", ["dev"; "release"])] chain3) as [r2|] eqn:E2;
    [|vm_compute in E2; discriminate].
  exists r1. split; [done|]. f_equal. symmetry.
  exact (build_and_sort_deterministic [("C", ["main"])] [("C", ["dev"; "release"])]
           chain3 10 20 r1 r2 eq_refl E1 E2).
Defined.

Lemma topological_sort_frame_witness :
  ∃ r, topological_sort 10 chain3_built ["A"] = Some (Ok r) ∧
       static <$> r_commits r = static <$> chain3_built ∧
       ["A"] `prefix_of` r_root_commits r ∧
       (∀ sorted, r_outcome r = Return sorted → r_root_commits r = sorted).
Proof.
  eexists. split; [vm_compute; reflexivity|].
  exact (topological_sort_frame 10 chain3_built ["A"] _ eq_refl).
Defined.

(** C8 as stated fails: after sorting the chain, the list bound to
    [root_commits] is no longer the list of roots the builder made. *)
Lemma topological_sort_extends_root_commits :
  build_commit_graph [("C", ["main"])] chain3 [] = Some (Ok (chain3_built, ["A"])) ∧
  ∃ r, topological_sort 10 chain3_built ["A"] = Some (Ok r) ∧
       r_root_commits r = ["A"; "B"; "C"] ∧ r_root_commits r ≠ ["A"].
Proof.
  split; [exact chain3_build|]. eexists. split; [vm_compute; reflexivity|].
  split; [reflexivity | discriminate].
Qed.

Lemma children_follow_parent_lists_witness :
  let p := mkCommit "A" [] ["B"] [] in
  (∀ c, reachable ["C"] chain3 c →
        count c (children p) = count (commit_hash p) (parents_of chain3 c)) ∧
  (∀ c, ¬ reachable ["C"] chain3 c → c ∉ children p) ∧
  ((∀ c, c ∈ chain3 → NoDup (parents c)) → NoDup (children p)).
Proof.
  apply (children_follow_parent_lists [("C", ["main"])] chain3 chain3_built ["A"]
           chain3_fresh chain3_NoDup chain3_build).
  by left.
Defined.

(** C9 as stated fails: a commit that lists the same parent twice is
    recorded twice among the children of that parent. *)
Lemma children_repeat_declared_twice :
  build_commit_graph [("C", ["main"])] [new_commit "P" []; new_commit "C" ["P"; "P"]] []
  = Some (Ok ([mkCommit "P" [] ["C"; "C"] []; mkCommit "C" ["P"; "P"] [] []], ["P"])) ∧
  ¬ NoDup (children (mkCommit "P" [] ["C"; "C"] [])).
Proof.
  split; [vm_compute; reflexivity|].
  simpl. intros H. apply NoDup_cons in H as [H _]. apply H. by left.
Qed.

Lemma missing_commit_is_uncaught_witness :
  ∃ attr,
    build_commit_graph [("A", ["main"])] [new_commit "A" ["B"]] []
    = Some (Raise (AttributeError attr)) ∧
    topo_order_commits 5 [("A", ["main"])] [new_commit "A" ["B"]]
    = Some (Traceback "" [] (AttributeError attr)).
Proof.
  apply (missing_commit_is_uncaught [("A", ["main"])] [new_commit "A" ["B"]] "B" 5).
  - repeat constructor.
  - apply (reach_parent _ _ "A"); [apply reach_head|]; by left.
  - intros [o Ho]. vm_compute in Ho. discriminate.
Defined.

(** C6 as stated fails twice over.  A parent hash without an object does
    no harm when the commit that lists it is unreachable: the run ends
    with status 0.  And when a reachable hash has no object, the run does
    not end with a diagnostic line of its own but with an exception. *)
Lemma missing_commit_not_reported :
  (let commits := [new_commit "A" []; new_commit "X" ["Z"]] in
   "Z" ∈ parents (new_commit "X" ["Z"]) ∧ ¬ has commits "Z" ∧
   topo_order_commits 5 [("A", ["main"])] commits
   = Some (Finished ("A main" +:+ LF) [] 0)) ∧
  (let commits := [new_commit "A" ["B"]] in
   ¬ has commits "B" ∧
   topo_order_commits 5 [("A", ["main"])] commits
   = Some (Traceback "" [] (AttributeError "children")) ∧
   ∀ out line status,
     topo_order_commits 5 [("A", ["main"])] commits ≠ Some (Finished out [line] status)).
Proof.
  split; simpl.
  - split_and!; [by left | intros [o Ho]; vm_compute in Ho; discriminate |].
    vm_compute. reflexivity.
  - assert (topo_order_commits 5 [("A", ["main"])] [new_commit "A" ["B"]]
            = Some (Traceback "" [] (AttributeError "children"))) as E
      by (vm_compute; reflexivity).
    split_and!; [intros [o Ho]; vm_compute in Ho; discriminate | done |].
    intros out line status. rewrite E. discriminate.
Qed.

(** ** The work list and the pruning *)

(** C4, as the program has it.  The work list is seeded with the keys of
    the branch dictionary in the order the dictionary yields them, which is
    the order in which the branch files were found: entry [i] of the seed is
    the hash of branch entry [i].  Nothing sorts them. *)
Theorem worklist_seeded_in_enumeration_order (branches : list (string * list string)) i :
  seed_processing_list branches !! i = fst <$> branches !! i.
Proof. by rewrite seed_processing_list_keys, list_lookup_fmap. Qed.

(** C4 as stated fails: heads found in the order b, a are seeded in that
    order, and finding them in the other order seeds the other list. *)
Lemma worklist_seed_not_sorted :
  let branches := [("b", ["main"]); ("a", ["dev"])] in
  seed_processing_list branches = ["b"; "a"] ∧
  ¬ Sorted String.le (seed_processing_list branches) ∧
  seed_processing_list (reverse branches) ≠ seed_processing_list branches.
Proof.
  split_and!; [reflexivity | | discriminate].
  intros H. apply Sorted_inv in H as [_ H]. apply HdRel_inv in H.
  vm_compute in H. done.
Qed.

Lemma only_head_reachable h :
  reachable ["A"] [new_commit "A" []; new_commit "X" []; new_commit "Y" []] h → h = "A".
Proof.
  induction 1 as [h Hh|c p _ -> Hp].
  - by apply list_elem_of_singleton in Hh.
  - vm_compute in Hp. by apply elem_of_nil in Hp.
Qed.

(** C5 on three commits of which only the first is reachable: the loop of
    [remove_unvisited_commits] removes X, steps over Y, and the sorter then
    finds one commit more than it ordered. *)
Theorem remove_unvisited_commits_steps_over :
  let commits := [new_commit "A" []; new_commit "X" []; new_commit "Y" []] in
  build_commit_graph [("A", ["main"])] commits []
  = Some (Ok ([new_commit "A" []; new_commit "Y" []], ["A"])) ∧
  ¬ reachable ["A"] commits "Y" ∧
  topo_order_commits 5 [("A", ["main"])] commits = Some (Finished "" [error_sort] 1).
Proof.
  split_and!; [vm_compute; reflexivity | | vm_compute; reflexivity].
  by intros ?%only_head_reachable.
Qed.

(** ** A merge, printed *)

Example diamond_sorted :
  build_and_sort 10 [("M", ["main"; "dev"])] diamond
  = Some (Ok (mkSorted diamond_built ["A"; "B"; "C"; "M"] [] (Return ["A"; "B"; "C"; "M"]))).
Proof. vm_compute. reflexivity. Qed.

Example diamond_run :
  topo_order_commits 10 [("M", ["main"; "dev"])] diamond
  = Some (Finished ("M dev main" +:+ LF +:+ "C" +:+ LF +:+ "A=" +:+ LF +:+ LF +:+
                    "=M" +:+ LF +:+ "B" +:+ LF +:+ "A" +:+ LF) [] 0).
Proof. vm_compute. reflexivity. Qed.

Lemma sticky_break_markers_witness :
  ∃ before after,
    (print_sticky_sorted_order (["M"] ++ "C" :: "B" :: ["A"]) diamond_built
       [("M", ["dev"; "main"])]).1
    = before +:+ commit_line [("M", ["dev"; "main"])] "C"
        +:+ parents_marker (mkCommit "C" ["A"] ["M"] [])
        +:+ children_marker (mkCommit "B" ["A"] ["M"] [])
        +:+ commit_line [("M", ["dev"; "main"])] "B" +:+ after.
Proof.
  apply (sticky_break_markers diamond_built [("M", ["dev"; "main"])]
           ["M"] "C" "B" ["A"]).
  - intros h Hh. list_cases Hh. eexists. vm_compute. reflexivity.
  - vm_compute. reflexivity.
  - vm_compute. reflexivity.
  - simpl. intros H. list_cases H. discriminate.
Defined.

(** * More of the program *)

(** ** remove_unvisited_commits, exactly *)

Lemma remove_commit_middle c pre rest :
  commit_hash c ∉ hashes pre → remove_commit c (pre ++ c :: rest) = pre ++ rest.
Proof.
  unfold hashes. induction pre as [|d pre IH]; csimpl; intros Hn.
  - by rewrite (proj2 (commit_eq_true c (commit_hash c))).
  - apply not_elem_of_cons in Hn as [Hd Hn].
    rewrite (proj2 (commit_eq_false d (commit_hash c))) by congruence.
    by rewrite IH.
Qed.

Lemma remove_unvisited_loop_skip V fuel : ∀ pre suf,
  NoDup (hashes (pre ++ suf)) → length suf ≤ fuel →
  remove_unvisited_loop fuel (length pre) (pre ++ suf) V = pre ++ skip_prune V suf.
Proof.
  induction fuel as [|fuel IH]; intros pre suf Hnd Hlen.
  - destruct suf; [done | simpl in Hlen; lia].
  - simpl. rewrite lookup_app_r, Nat.sub_diag by lia.
    destruct suf as [|c rest]; [done|]. simpl.
    destruct (not_in_visited V c) eqn:Hc.
    + rewrite remove_commit_middle.
      2:{ unfold hashes in *. rewrite fmap_app in Hnd. apply NoDup_app in Hnd as (_ & Hd & _).
          intros Hin. apply (Hd _ Hin). csimpl. by left. }
      assert (NoDup (hashes (pre ++ rest))) as Hnd'.
      { eapply sublist_NoDup; [exact Hnd|]. unfold hashes. apply fmap_sublist.
        apply sublist_app; [done | by apply sublist_cons]. }
      destruct rest as [|d rest'].
      * destruct fuel; simpl; [done|].
        by rewrite (proj2 (lookup_ge_None _ _)) by (rewrite length_app; simpl; lia).
      * replace (S (length pre)) with (length (pre ++ [d])) by (rewrite length_app; simpl; lia).
        replace (pre ++ d :: rest') with ((pre ++ [d]) ++ rest') in * by (by rewrite <- app_assoc).
        rewrite IH; [by rewrite <- app_assoc | done | simpl in Hlen; lia].
    + replace (S (length pre)) with (length (pre ++ [c])) by (rewrite length_app; simpl; lia).
      replace (pre ++ c :: rest) with ((pre ++ [c]) ++ rest) in * by (by rewrite <- app_assoc).
      rewrite IH; [by rewrite <- app_assoc | done | simpl in Hlen; lia].
Qed.

(** On commits with distinct hashes, [remove_unvisited_commits] drops an
    unvisited commit and then steps over the next commit, whatever it is:
    the commit right after a dropped one always stays. *)
Theorem remove_unvisited_commits_skips commits V :
  NoDup (hashes commits) →
  remove_unvisited_commits commits V = skip_prune V commits.
Proof.
  intros Hnd. unfold remove_unvisited_commits.
  by apply (remove_unvisited_loop_skip V (length commits) [] commits).
Qed.

Lemma remove_commit_filter (P : CommitObject → bool) c cs :
  (∀ d, commit_hash d = commit_hash c → P d = false) →
  filter P (remove_commit c cs) = filter P cs.
Proof.
  intros HP. induction cs as [|d cs IH]; simpl; [done|].
  destruct (commit_eq d (commit_hash c)) eqn:E.
  - apply commit_eq_true in E. rewrite filter_cons.
    rewrite (HP d E). by destruct (decide (Is_true false)).
  - rewrite !filter_cons, IH. done.
Qed.

(** Whatever the input, [remove_unvisited_commits] only takes commits out,
    and never one whose hash is in [visited]: the visited commits are all
    still there, in their order. *)
Theorem remove_unvisited_commits_keeps_visited commits V :
  remove_unvisited_commits commits V `sublist_of` commits ∧
  filter (λ c, negb (not_in_visited V c)) (remove_unvisited_commits commits V)
  = filter (λ c, negb (not_in_visited V c)) commits.
Proof.
  split; [apply remove_unvisited_loop_sublist|].
  unfold remove_unvisited_commits. generalize (length commits) as fuel, 0 as i.
  intros fuel. revert commits.
  induction fuel as [|fuel IH]; intros commits i; simpl; [done|].
  destruct (commits !! i) as [c|]; [|done].
  destruct (not_in_visited V c) eqn:Hc; [|apply IH].
  rewrite IH. apply remove_commit_filter. intros d Hd.
  unfold not_in_visited in *. rewrite Hd. by rewrite Hc.
Qed.

Lemma skip_prune_filter V n : ∀ commits,
  length commits ≤ n → unvisited_apart V commits →
  skip_prune V commits = filter (λ c, negb (not_in_visited V c)) commits.
Proof.
  induction n as [|n IH]; intros commits Hlen Hap.
  - destruct commits; [done | simpl in Hlen; lia].
  - destruct commits as [|c rest]; [done|]. simpl in Hlen.
    assert (unvisited_apart V rest) as Hrest.
    { intros i x y Hx Hy. apply (Hap (S i) x y); done. }
    simpl. rewrite filter_cons. destruct (not_in_visited V c) eqn:Hc; simpl.
    + destruct rest as [|d rest']; [done|].
      assert (not_in_visited V d = false) as Hd by (by apply (Hap 0 c d)).
      rewrite filter_cons, Hd. simpl.
      rewrite IH; [done | simpl in Hlen; lia |].
      intros i x y Hx Hy. apply (Hrest (S i) x y); done.
    + rewrite IH; [done | lia | done].
Qed.

(** When the commits have distinct hashes and no two unvisited commits
    stand next to each other, [remove_unvisited_commits] does remove every
    unvisited commit. *)
Theorem remove_unvisited_commits_complete commits V :
  NoDup (hashes commits) → unvisited_apart V commits →
  remove_unvisited_commits commits V
  = filter (λ c, negb (not_in_visited V c)) commits.
Proof.
  intros Hnd Hap. unfold remove_unvisited_commits.
  pose proof (remove_unvisited_loop_skip V (length commits) [] commits Hnd) as H.
  simpl in H. rewrite H by done.
  by apply (skip_prune_filter V (length commits)).
Qed.

(** ** More on build_commit_graph *)

Lemma sublist_records_has cs1 cs0 h :
  record <$> cs1 `sublist_of` record <$> cs0 → has cs1 h → has cs0 h.
Proof.
  intros Hsub. rewrite !has_hashes. unfold hashes. change commit_hash with (fst ∘ record).
  rewrite !list_fmap_compose. intros Hin. eapply elem_of_sublist; [exact Hin|].
  by apply fmap_sublist.
Qed.


(** The list [build_commit_graph] leaves in [root_commits] holds, once
    each, the reachable hashes whose commit has no parent. *)
Theorem root_commits_are_the_reachable_roots branches commits commits1 roots :
  fresh commits →
  build_commit_graph branches commits [] = Some (Ok (commits1, roots)) →
  NoDup roots ∧
  ∀ h, h ∈ roots ↔ reachable branches.*1 commits h ∧ has commits h ∧
                    parents_of commits h = [].
Proof.
  intros Hfresh Hb.
  destruct (build_commit_graph_ok _ _ _ _ Hfresh Hb) as (G & Hsub & Hpar & _).
  split; [apply G|]. intros h. rewrite (go_roots _ _ _ G). split.
  - intros [Hh Hp]. split_and!; [done | | by rewrite <- Hpar].
    eapply sublist_records_has; [exact Hsub|]. by apply G.
  - intros (Hh & _ & Hp). split; [done | by rewrite Hpar].
Qed.

(** [build_commit_graph] keeps every reachable commit, with the parents it
    came with, and the children it records are reachable commits; it never
    adds a commit or alters a hash or a parents list. *)
Theorem built_graph_keeps_the_reachable branches commits commits1 roots :
  fresh commits →
  build_commit_graph branches commits [] = Some (Ok (commits1, roots)) →
  record <$> commits1 `sublist_of` record <$> commits ∧
  ∀ h, reachable branches.*1 commits h →
       has commits1 h ∧ parents_of commits1 h = parents_of commits h ∧
       (∀ p, p ∈ parents_of commits1 h → h ∈ children_of commits1 p) ∧
       (∀ c, c ∈ children_of commits1 h → h ∈ parents_of commits1 c).
Proof.
  intros Hfresh Hb.
  destruct (build_commit_graph_ok _ _ _ _ Hfresh Hb) as (G & Hsub & Hpar & _).
  split; [done|]. intros h Hh. split_and!; [by apply G | by apply Hpar | |].
  - intros p Hp. apply count_pos.
    rewrite (go_edges _ _ _ G) by (done || by eapply (go_parents _ _ _ G)).
    by apply count_pos.
  - intros c Hc. apply count_pos.
    rewrite <- (go_edges _ _ _ G) by (done || by eapply (go_children _ _ _ G)).
    by apply count_pos.
Qed.

(** ** More on topological_sort *)

(** The one way [topological_sort] can end on a built graph. *)
Lemma built_sort_result branches commits commits1 roots :
  fresh commits →
  build_commit_graph branches commits [] = Some (Ok (commits1, roots)) →
  ∃ st, sort_inv (reachable branches.*1 commits) commits1
          (length (s_processing_list st)) st ∧
        (∀ fuel, length commits1 < fuel →
           topological_sort fuel commits1 roots = Some (Ok (sort_checks st))) ∧
        (∀ fuel x, topological_sort fuel commits1 roots = Some x →
           x = Ok (sort_checks st)).
Proof.
  intros Hfresh Hb.
  destruct (build_commit_graph_ok _ _ _ _ Hfresh Hb) as (G & _).
  destruct (sort_loop_ok _ _ _ G (S (length commits1)) 0 _ (sort_inv_init _ _ _ G))
    as (st & Hloop & Hinv); [lia|].
  assert (∀ fuel, length commits1 < fuel →
            topological_sort fuel commits1 roots = Some (Ok (sort_checks st))) as Hrun.
  { intros fuel Hfuel. unfold topological_sort.
    by rewrite (sort_loop_mono _ _ _ _ Hloop) by lia. }
  exists st. split_and!; [done..|].
  intros fuel x Hx.
  apply (topological_sort_mono _ (fuel `max` S (length commits1))) in Hx; [|lia].
  rewrite Hrun in Hx by lia. congruence.
Qed.

Lemma sort_checks_Return st sorted :
  r_outcome (sort_checks st) = Return sorted →
  sorted = s_sorted_list st ∧
  length (s_commits st) = length (s_sorted_list st) ∧
  ∀ e, e ∈ s_commits st → temp_parents e = [].
Proof.
  unfold sort_checks.
  destruct (existsb _ _) eqn:Hex; [done|]. case_bool_decide as Hlen; [done|].
  simpl. intros [= <-]. split_and!; [done | | ].
  - destruct (decide (length (s_commits st) = length (s_sorted_list st))); done.
  - intros e He. destruct (decide (temp_parents e = [])) as [|Hne]; [done|].
    assert (existsb (λ commit, negb (bool_decide (temp_parents commit = []))) (s_commits st)
            = true) as Hex'; [|congruence].
    apply existsb_exists. exists e. split; [by apply list_elem_of_In|].
    by rewrite bool_decide_eq_false_2.
Qed.

Lemma sort_checks_outcome st :
  (∃ sorted, r_outcome (sort_checks st) = Return sorted ∧
             r_stderr (sort_checks st) = s_stderr st) ∨
  (r_outcome (sort_checks st) = Exit 1 ∧
   (r_stderr (sort_checks st) = s_stderr st ++ [error_cycle] ∨
    r_stderr (sort_checks st) = s_stderr st ++ [error_sort])).
Proof.
  unfold sort_checks. destruct (existsb _ _); [right; auto|].
  case_bool_decide; [right; auto | left; eauto].
Qed.

(** What a returned order is worth, on a graph built from commits with
    distinct hashes. *)
Lemma built_sort_Return branches commits commits1 roots st sorted :
  fresh commits → NoDup (hashes commits) →
  build_commit_graph branches commits [] = Some (Ok (commits1, roots)) →
  sort_inv (reachable branches.*1 commits) commits1 (length (s_processing_list st)) st →
  r_outcome (sort_checks st) = Return sorted →
  sorted = s_processing_list st ∧
  NoDup sorted ∧
  (∀ h, h ∈ sorted ↔ reachable branches.*1 commits h) ∧
  sorted ≡ₚ hashes commits1.
Proof.
  intros Hfresh Hnd Hb Hinv Hret.
  destruct (build_commit_graph_ok _ _ _ _ Hfresh Hb) as (G & Hsub & _).
  pose proof (hashes_sublist _ _ Hsub Hnd) as Hnd1.
  apply sort_checks_Return in Hret as (-> & Hlen & Htemp).
  assert (s_sorted_list st = s_processing_list st) as Hsorted.
  { rewrite (si_sorted _ _ _ _ Hinv). apply firstn_all. }
  rewrite Hsorted in *. set (L := s_processing_list st) in *.
  assert (hashes (s_commits st) = hashes commits1) as Hhashes.
  { apply record_hashes, static_record, Hinv. }
  assert (∀ h, h ∈ L ↔ reachable branches.*1 commits h) as HL.
  { intros h. split; [apply (si_reach _ _ _ _ Hinv)|]. intros Hh.
    apply (si_queue _ _ _ _ Hinv); [done|].
    assert (has (s_commits st) h) as [e He].
    { apply (record_has _ commits1); [apply static_record, Hinv | by apply G]. }
    unfold temp_of. rewrite He. simpl. apply Htemp. by apply grab_Some in He as [? _]. }
  split_and!; [done | apply Hinv | done |].
  apply submseteq_length_Permutation.
  - apply NoDup_submseteq; [apply Hinv|]. intros h Hh. by apply has_hashes, G, HL.
  - unfold hashes. rewrite length_fmap.
    assert (length (s_commits st) = length commits1) as Hl.
    { by rewrite <- (length_fmap static (s_commits st)), (si_static _ _ _ _ Hinv),
        length_fmap. }
    lia.
Qed.

(** Whenever [topological_sort] returns a list on a graph built from
    commits with distinct hashes, that list holds exactly the reachable
    hashes, once each; every commit in the store is one of them; and each
    commit comes after all its parents. *)
Theorem returned_order_is_topological branches commits commits1 roots fuel r sorted :
  fresh commits → NoDup (hashes commits) →
  build_commit_graph branches commits [] = Some (Ok (commits1, roots)) →
  topological_sort fuel commits1 roots = Some (Ok r) →
  r_outcome r = Return sorted →
  NoDup sorted ∧
  (∀ h, h ∈ sorted ↔ reachable branches.*1 commits h) ∧
  (∀ c, c ∈ commits1 → commit_hash c ∈ sorted) ∧
  (∀ c p, c ∈ commits1 → p ∈ parents c →
     ∃ i j, sorted !! i = Some p ∧ sorted !! j = Some (commit_hash c) ∧ i < j).
Proof.
  intros Hfresh Hnd Hb Hsort Hret.
  destruct (built_sort_result _ _ _ _ Hfresh Hb) as (st & Hinv & _ & Huniq).
  apply Huniq in Hsort as [= ->].
  destruct (built_sort_Return _ _ _ _ _ _ Hfresh Hnd Hb Hinv Hret)
    as (-> & Hnd' & HL & Hperm).
  destruct (build_commit_graph_ok _ _ _ _ Hfresh Hb) as (_ & Hsub & _).
  pose proof (hashes_sublist _ _ Hsub Hnd) as Hnd1.
  assert (∀ c, c ∈ commits1 → commit_hash c ∈ s_processing_list st) as Hall.
  { intros c Hc. rewrite Hperm. apply list_elem_of_fmap. eauto. }
  split_and!; [done..|].
  intros c p Hc Hp.
  destruct (proj1 (list_elem_of_lookup _ _) (Hall c Hc)) as [j Hj].
  rewrite <- (parents_of_entry commits1) in Hp by done.
  apply (si_order _ _ _ _ Hinv j _ p) in Hj as Hq; [|done].
  apply elem_of_take in Hq as (i & Hi & Hlt). eauto.
Qed.

(** When the pruning has left an unreachable commit in the store, the
    sorter cannot return an order: it ends with status 1, on either of its
    two messages. *)
Theorem leftover_commit_fails_the_sort branches commits commits1 roots c :
  fresh commits → NoDup (hashes commits) →
  build_commit_graph branches commits [] = Some (Ok (commits1, roots)) →
  c ∈ commits1 → ¬ reachable branches.*1 commits (commit_hash c) →
  ∃ r, (∀ fuel, length commits1 < fuel →
          topological_sort fuel commits1 roots = Some (Ok r)) ∧
       r_outcome r = Exit 1 ∧
       (r_stderr r = [error_cycle] ∨ r_stderr r = [error_sort]).
Proof.
  intros Hfresh Hnd Hb Hc Hn.
  destruct (built_sort_result _ _ _ _ Hfresh Hb) as (st & Hinv & Hrun & _).
  exists (sort_checks st). split; [done|].
  destruct (sort_checks_outcome st) as [(sorted & Hret & _)|[Hex Herr]].
  - exfalso. destruct (built_sort_Return _ _ _ _ _ _ Hfresh Hnd Hb Hinv Hret)
      as (_ & _ & HL & Hperm).
    apply Hn, HL. rewrite Hperm. apply list_elem_of_fmap. eauto.
  - split; [done|]. by rewrite (si_stderr _ _ _ _ Hinv) in Herr.
Qed.

(** ** More on print_sticky_sorted_order *)

Section sticky_more.
Context (commits : list CommitObject) (branches : list (string * list string)).

Lemma sticky_round_no_raise prev_empty cur next :
  has commits cur →
  ∃ out flag, sticky_round commits branches prev_empty cur next = (out, flag, None).
Proof.
  intros [c Hc]. unfold sticky_round. rewrite Hc.
  destruct prev_empty, next; try case_bool_decide; eauto.
Qed.

Lemma sticky_loop_no_raise order : ∀ prev_empty,
  (∀ h, h ∈ order → has commits h) →
  (sticky_loop commits branches prev_empty order).2 = None.
Proof.
  induction order as [|h order IH]; intros prev_empty Hhas; [done|].
  rewrite sticky_loop_cons.
  destruct (sticky_round_no_raise prev_empty h (head order)) as (out & flag & ->);
    [apply Hhas; by left|].
  specialize (IH flag (λ x Hx, Hhas x (list_elem_of_further _ _ _ Hx))).
  by destruct (sticky_loop commits branches flag order).
Qed.

(** With a commit object for every hash of the order, the formatter runs
    to the end: no attribute access on [None]. *)
Theorem print_sticky_sorted_order_no_raise order :
  (∀ h, h ∈ order → has commits h) →
  (print_sticky_sorted_order order commits branches).2 = None.
Proof.
  unfold print_sticky_sorted_order. generalize false as prev_empty.
  induction order as [|h order IH]; intros prev_empty Hhas; [done|].
  rewrite sticky_loop_cons.
  destruct (sticky_round_no_raise prev_empty h (head order)) as (out & flag & ->);
    [apply Hhas; by left|].
  specialize (IH flag (λ x Hx, Hhas x (list_elem_of_further _ _ _ Hx))).
  by destruct (sticky_loop commits branches flag order).
Qed.

Lemma sticky_round_continue cur nxt c :
  grab_corresponding_commit commits cur = Some c → nxt ∈ parents c →
  sticky_round commits branches false cur (Some nxt)
  = (commit_line branches cur, false, None).
Proof.
  intros Hc Hn. unfold sticky_round. rewrite Hc.
  by rewrite bool_decide_eq_false_2 by (by intros []).
Qed.

Lemma sticky_round_last cur :
  sticky_round commits branches false cur None = (commit_line branches cur, false, None).
Proof. unfold sticky_round. by destruct (grab_corresponding_commit commits cur). Qed.

(** When each commit of the order is followed by one of its parents, the
    output is the line of each commit in turn: no marker, no empty line. *)
Theorem print_sticky_sorted_order_chain order :
  (∀ h, h ∈ order → has commits h) →
  (∀ i cur nxt, order !! i = Some cur → order !! S i = Some nxt →
                nxt ∈ parents_of commits cur) →
  print_sticky_sorted_order order commits branches
  = (foldr (λ h text, commit_line branches h +:+ text) "" order, None).
Proof.
  unfold print_sticky_sorted_order.
  induction order as [|cur order IH]; intros Hhas Hchain; [done|].
  rewrite sticky_loop_cons.
  assert (sticky_round commits branches false cur (head order)
          = (commit_line branches cur, false, None)) as ->.
  { destruct order as [|nxt order]; [apply sticky_round_last|].
    destruct (Hhas cur) as [c Hc]; [by left|].
    apply (sticky_round_continue cur nxt c Hc).
    specialize (Hchain 0 cur nxt eq_refl eq_refl).
    unfold parents_of in Hchain. by rewrite Hc in Hchain. }
  rewrite IH; [done | |].
  - intros h Hh. apply Hhas. by right.
  - intros i x y Hx Hy. by apply (Hchain (S i) x y).
Qed.

End sticky_more.

(** ** Branch names *)

Lemma branches_get_sorted branches h :
  branches_get (sort_branch_names branches) h
  = merge_sort String.le <$> branches_get branches h.
Proof.
  unfold sort_branch_names. induction branches as [|[k names] branches IH]; [done|].
  csimpl. destruct (decide (k = h)); [done | apply IH].
Qed.

(** After the branch names are sorted, the hashes and their order are as
    before, and the line printed for a commit carries its hash followed by
    the names of its branches in lexicographic order -- the same names, each
    as often as before. *)
Theorem sorted_names_on_commit_line branches h :
  (sort_branch_names branches).*1 = branches.*1 ∧
  match branches_get branches h with
  | None => commit_line (sort_branch_names branches) h = print [h]
  | Some names =>
      ∃ sorted, commit_line (sort_branch_names branches) h = print (h :: sorted) ∧
                Sorted String.le sorted ∧ sorted ≡ₚ names
  end.
Proof.
  split.
  - unfold sort_branch_names. rewrite <- list_fmap_compose. by apply list_fmap_ext.
  - unfold commit_line. rewrite branches_get_sorted.
    destruct (branches_get branches h) as [names|]; [|done].
    exists (merge_sort String.le names). split_and!; [done | |].
    + apply (Sorted_merge_sort _).
    + apply merge_sort_Permutation.
Qed.

(** ** The whole run *)

Lemma built_sort_has branches commits commits1 roots st h :
  fresh commits →
  build_commit_graph branches commits [] = Some (Ok (commits1, roots)) →
  sort_inv (reachable branches.*1 commits) commits1 (length (s_processing_list st)) st →
  h ∈ s_processing_list st → has (s_commits st) h.
Proof.
  intros Hfresh Hb Hinv Hh.
  destruct (build_commit_graph_ok _ _ _ _ Hfresh Hb) as (G & _).
  apply (record_has _ commits1); [apply static_record, Hinv|].
  by apply G, (si_reach _ _ _ _ Hinv).
Qed.

(** How a run on fresh commit objects can end, and nothing else: with the
    order printed and status 0; with one of the sorter's two messages,
    status 1 and nothing printed; or with the exception of a reachable
    hash that has no commit object, before anything is written.  The
    sorter and the formatter raise nothing, the warning about a
    nonexisting parent is never written, and no output precedes a
    failure. *)
Theorem topo_order_commits_ends fuel branches commits r :
  fresh commits →
  topo_order_commits fuel branches commits = Some r →
  (∃ out, r = Finished out [] 0) ∨
  r = Finished "" [error_cycle] 1 ∨
  r = Finished "" [error_sort] 1 ∨
  (∃ attr h, r = Traceback "" [] (AttributeError attr) ∧
             reachable branches.*1 commits h ∧ ¬ has commits h).
Proof.
  intros Hfresh. unfold topo_order_commits, build_and_sort.
  destruct (build_commit_graph branches commits []) as [[[commits1 roots]|[attr]]|] eqn:Hb;
    [| |done].
  - destruct (built_sort_result _ _ _ _ Hfresh Hb) as (st & Hinv & _ & Huniq).
    destruct (topological_sort fuel commits1 roots) as [x|] eqn:Hsort; [|done].
    rewrite (Huniq _ _ Hsort).
    destruct (sort_checks_outcome st) as [(sorted & Hret & Herr)|[Hex Herr]];
      rewrite (si_stderr _ _ _ _ Hinv) in Herr.
    + rewrite Hret, Herr.
      apply sort_checks_Return in Hret as Hs. destruct Hs as (-> & _ & _).
      assert (s_sorted_list st = s_processing_list st) as Hsorted.
      { rewrite (si_sorted _ _ _ _ Hinv). apply firstn_all. }
      assert (r_commits (sort_checks st) = s_commits st) as ->.
      { unfold sort_checks. destruct (existsb _ _); [done|]. by case_bool_decide. }
      assert ((∀ h, h ∈ reverse (s_sorted_list st) → has (s_commits st) h) →
              (print_sticky_sorted_order (reverse (s_sorted_list st)) (s_commits st)
                 (sort_branch_names branches)).2 = None) as Hpr
        by apply sticky_loop_no_raise.
      destruct (print_sticky_sorted_order _ _ _) as [out e]. simpl in Hpr.
      rewrite Hpr.
      * intros [= <-]. left. eauto.
      * intros h Hh. rewrite elem_of_reverse, Hsorted in Hh.
        exact (built_sort_has _ _ _ _ _ _ Hfresh Hb Hinv Hh).
    + rewrite Hex. destruct Herr as [-> | ->]; intros [= <-]; auto.
  - intros [= <-]. right. right. right.
    apply build_commit_graph_raise in Hb as (h & Hh & Hn); [|done]. eauto.
Qed.

Lemma built_sort_acyclic branches commits commits1 roots st :
  fresh commits → NoDup (hashes commits) →
  build_commit_graph branches commits [] = Some (Ok (commits1, roots)) →
  (∀ c, c ∈ commits1 → reachable branches.*1 commits (commit_hash c)) →
  acyclic commits1 →
  sort_inv (reachable branches.*1 commits) commits1 (length (s_processing_list st)) st →
  ∃ sorted, r_outcome (sort_checks st) = Return sorted.
Proof.
  intros Hfresh Hnd Hb Hreach Hacc Hinv.
  destruct (build_commit_graph_ok _ _ _ _ Hfresh Hb) as (G & Hsub & _).
  pose proof (hashes_sublist _ _ Hsub Hnd) as Hnd1.
  set (L := s_processing_list st) in *.
  assert (∀ h, reachable branches.*1 commits h → h ∈ L) as HL
    by (by apply (sort_inv_complete _ _ _ G)).
  assert (hashes (s_commits st) = hashes commits1) as Hhashes.
  { apply record_hashes, static_record, Hinv. }
  assert (L ≡ₚ hashes commits1) as Hperm.
  { apply NoDup_Permutation; [apply Hinv | done |]. intros h. split.
    - intros Hh. by apply has_hashes, G, (si_reach _ _ _ _ Hinv).
    - intros (c & -> & Hc)%list_elem_of_fmap. by apply HL, Hreach. }
  unfold sort_checks.
  assert (existsb (λ commit, negb (bool_decide (temp_parents commit = []))) (s_commits st)
          = false) as ->.
  { apply not_true_iff_false. intros (e & He & Hte)%existsb_exists.
    apply list_elem_of_In in He.
    assert (commit_hash e ∈ L) as HeL.
    { rewrite Hperm, <- Hhashes. apply list_elem_of_fmap. eauto. }
    apply (si_queue _ _ _ _ Hinv) in HeL as Htemp;
      [|by apply (si_reach _ _ _ _ Hinv)].
    unfold temp_of in Htemp. rewrite grab_NoDup in Htemp by (by rewrite ?Hhashes).
    simpl in Htemp. rewrite Htemp in Hte. by rewrite bool_decide_eq_true_2 in Hte. }
  rewrite bool_decide_eq_false_2; [eauto|].
  intros Hne. apply Hne. rewrite (si_sorted _ _ _ _ Hinv), firstn_all.
  fold L. rewrite Hperm. unfold hashes. rewrite length_fmap.
  by rewrite <- (length_fmap static), (si_static _ _ _ _ Hinv), length_fmap.
Qed.

(** A run on an acyclic built graph without leftover commits prints the
    order and ends with status 0, given steps for each commit. *)
Theorem topo_order_commits_succeeds branches commits commits1 roots :
  fresh commits → NoDup (hashes commits) →
  build_commit_graph branches commits [] = Some (Ok (commits1, roots)) →
  (∀ c, c ∈ commits1 → reachable branches.*1 commits (commit_hash c)) →
  acyclic commits1 →
  ∃ out, ∀ fuel, length commits1 < fuel →
    topo_order_commits fuel branches commits = Some (Finished out [] 0).
Proof.
  intros Hfresh Hnd Hb Hreach Hacc.
  destruct (built_sort_result _ _ _ _ Hfresh Hb) as (st & Hinv & Hrun & _).
  destruct (built_sort_acyclic _ _ _ _ _ Hfresh Hnd Hb Hreach Hacc Hinv) as [sorted Hret].
  assert (r_stderr (sort_checks st) = []) as Herr.
  { destruct (sort_checks_outcome st) as [(s & _ & ->)|[Hex _]]; [apply Hinv | congruence]. }
  assert (r_commits (sort_checks st) = s_commits st) as Hcs.
  { unfold sort_checks. destruct (existsb _ _); [done|]. by case_bool_decide. }
  assert ((∀ h, h ∈ reverse sorted → has (s_commits st) h) →
          (print_sticky_sorted_order (reverse sorted) (s_commits st)
             (sort_branch_names branches)).2 = None) as Hpr
    by apply sticky_loop_no_raise.
  exists (print_sticky_sorted_order (reverse sorted) (s_commits st)
            (sort_branch_names branches)).1.
  intros fuel Hfuel. unfold topo_order_commits, build_and_sort.
  rewrite Hb, (Hrun fuel Hfuel), Hret, Herr, Hcs.
  destruct (print_sticky_sorted_order _ _ _) as [out e]. simpl in *.
  rewrite Hpr; [done|].
  intros h Hh. rewrite elem_of_reverse in Hh.
  apply sort_checks_Return in Hret as (-> & _ & _).
  rewrite (si_sorted _ _ _ _ Hinv), firstn_all in Hh.
  exact (built_sort_has _ _ _ _ _ _ Hfresh Hb Hinv Hh).
Qed.

(** The two ends of a returned order: it starts with a commit without
    parents and ends with a branch head without children -- so the first
    line printed, once the order is reversed, is that of a branch head, and
    the last one that of a root. *)
Theorem returned_order_ends branches commits commits1 roots fuel r sorted first final :
  fresh commits → NoDup (hashes commits) →
  build_commit_graph branches commits [] = Some (Ok (commits1, roots)) →
  topological_sort fuel commits1 roots = Some (Ok r) →
  r_outcome r = Return sorted →
  head sorted = Some first → last sorted = Some final →
  parents_of commits1 first = [] ∧
  final ∈ branches.*1 ∧ children_of commits1 final = [].
Proof.
  intros Hfresh Hnd Hb Hsort Hret Hfirst Hlast.
  destruct (built_sort_result _ _ _ _ Hfresh Hb) as (st & Hinv & _ & Huniq).
  apply Huniq in Hsort as [= ->].
  destruct (built_sort_Return _ _ _ _ _ _ Hfresh Hnd Hb Hinv Hret)
    as (-> & Hnd' & HL & Hperm).
  destruct (build_commit_graph_ok _ _ _ _ Hfresh Hb) as (G & _ & Hpar & _).
  set (L := s_processing_list st) in *.
  assert (children_of commits1 final = []) as Hch.
  { apply count_nil_iff. intros c. apply count_zero. intros Hc.
    rewrite last_lookup in Hlast.
    assert (reachable branches.*1 commits final) as Hf
      by (by eapply HL, list_elem_of_lookup_2).
    assert (reachable branches.*1 commits c) as Hrc by (by eapply (go_children _ _ _ G)).
    assert (final ∈ parents_of commits1 c) as Hp.
    { apply count_pos. rewrite <- (go_edges _ _ _ G) by done. by apply count_pos. }
    destruct (proj1 (list_elem_of_lookup _ _) (proj2 (HL c) Hrc)) as [j Hj].
    pose proof (si_order _ _ _ _ Hinv j c final Hj Hp) as Hin.
    apply elem_of_take in Hin as (k & Hk & Hlt).
    pose proof (NoDup_lookup _ _ _ _ Hnd' Hlast Hk).
    apply lookup_lt_Some in Hj. lia. }
  split_and!; [| |done].
  - rewrite head_lookup in Hfirst.
    apply count_nil_iff. intros q. apply count_zero. intros Hq.
    pose proof (si_order _ _ _ _ Hinv 0 first q Hfirst Hq) as Hin.
    rewrite take_0 in Hin. by apply elem_of_nil in Hin.
  - assert (reachable branches.*1 commits final) as Hf.
    { apply HL. rewrite last_lookup in Hlast. by eapply list_elem_of_lookup_2. }
    destruct Hf as [h Hh|c p Hc Hp]; [done|]. exfalso.
    rewrite <- Hpar in Hp by done.
    assert (c ∈ children_of commits1 p) as Hin.
    { apply count_pos. rewrite (go_edges _ _ _ G); [by apply count_pos | | done].
      by eapply (go_parents _ _ _ G). }
    rewrite Hch in Hin. by apply elem_of_nil in Hin.
Qed.

Lemma returned_order_ends_witness :
  parents_of chain3_built "A" = [] ∧
  "C" ∈ [("C", ["main"])].*1 ∧ children_of chain3_built "C" = [].
Proof.
  apply (returned_order_ends [("C", ["main"])] chain3 chain3_built ["A"] 10
           (mkSorted chain3_built ["A"; "B"; "C"] [] (Return ["A"; "B"; "C"]))
           ["A"; "B"; "C"] "A" "C" chain3_fresh chain3_NoDup chain3_build).
  - vm_compute. reflexivity.
  - reflexivity.
  - reflexivity.
  - reflexivity.
Defined.

(** ** navigate_to_git_parent_directory *)

Lemma suffix_cons_cases {A} (d : list A) x l :
  d `suffix_of` x :: l → d = x :: l ∨ d `suffix_of` l.
Proof.
  destruct d as [|y d]; [right; apply suffix_nil | apply suffix_cons_inv].
Qed.

(** The process ends in the nearest directory, from the working directory
    upwards, that has an entry [.git]; it exits exactly when no directory
    on the way up to the root has one. *)
Theorem navigate_finds_nearest exists_git cwd :
  match navigate_to_git_parent_directory exists_git cwd with
  | Some d =>
      d `suffix_of` cwd ∧ exists_git d = true ∧
      ∀ d', d' `suffix_of` cwd → length d < length d' → exists_git d' = false
  | None => ∀ d', d' `suffix_of` cwd → exists_git d' = false
  end.
Proof.
  induction cwd as [|x cwd IH]; simpl.
  - destruct (exists_git []) eqn:E.
    + split_and!; [done..|]. intros d' Hd' Hlen.
      apply suffix_nil_inv in Hd' as ->. simpl in Hlen. lia.
    + intros d' ->%suffix_nil_inv. done.
  - destruct (exists_git (x :: cwd)) eqn:E.
    + split_and!; [done..|]. intros d' Hd' Hlen.
      apply suffix_length in Hd'. lia.
    + destruct (navigate_to_git_parent_directory exists_git cwd) as [d|].
      * destruct IH as (Hsuf & Hd & Hnear). split_and!; [by apply suffix_cons_r | done |].
        intros d' [->|Hd']%suffix_cons_cases Hlen; [done | by apply Hnear].
      * intros d' [->|Hd']%suffix_cons_cases; [done | by apply IH].
Qed.

(** ** return_branches *)

Section branches_facts.
Implicit Types (branches : list (string * list string)) (h path : string).

Lemma branches_add_keys branches h path :
  (branches_add branches h path).*1
  = if decide (h ∈ branches.*1) then branches.*1 else branches.*1 ++ [h].
Proof.
  induction branches as [|[k ps] branches IH]; csimpl.
  - by destruct (decide (h ∈ [])) as [?%elem_of_nil|].
  - destruct (decide (k = h)) as [->|Hne]; csimpl.
    + rewrite decide_True; [done | by left].
    + rewrite IH. destruct (decide (h ∈ branches.*1)).
      * rewrite decide_True; [done | by right].
      * rewrite decide_False; [done|]. intros [?|?]%elem_of_cons; congruence.
Qed.

Lemma branches_add_get branches h path h' :
  branches_get (branches_add branches h path) h'
  = if decide (h' = h) then Some (paths_under branches h ++ [path])
    else branches_get branches h'.
Proof.
  unfold paths_under. induction branches as [|[k ps] branches IH]; simpl.
  - destruct (decide (h = h')), (decide (h' = h)); congruence.
  - destruct (decide (k = h)) as [->|Hne]; simpl.
    + destruct (decide (h = h')), (decide (h' = h)); congruence.
    + destruct (decide (k = h')) as [->|Hne'].
      * by rewrite decide_False by congruence.
      * rewrite IH. done.
Qed.

Lemma branches_add_good branches h path :
  NoDup branches.*1 ∧ (∀ k, branches_get branches k ≠ Some []) →
  NoDup (branches_add branches h path).*1 ∧
  (∀ k, branches_get (branches_add branches h path) k ≠ Some []).
Proof.
  intros [Hnd Hne]. split.
  - rewrite branches_add_keys. case_decide; [done|].
    apply NoDup_app. split_and!; [done | | apply NoDup_singleton].
    intros x Hx ->%list_elem_of_singleton. done.
  - intros k. rewrite branches_add_get. case_decide; [|apply Hne].
    intros [= Heq]. by destruct (paths_under branches h).
Qed.

Lemma collect_branches_from files : ∀ branches,
  NoDup branches.*1 ∧ (∀ k, branches_get branches k ≠ Some []) →
  let result := fold_left (λ branches file, branches_add branches file.2 file.1)
                  files branches in
  NoDup result.*1 ∧ (∀ k, branches_get result k ≠ Some []) ∧
  ∀ h, paths_under result h = paths_under branches h ++ files_with files h.
Proof.
  unfold files_with.
  induction files as [|[path hash] files IH]; intros branches Hgood; simpl.
  - destruct Hgood. split_and!; [done..|]. intros h. by rewrite app_nil_r.
  - destruct (IH _ (branches_add_good branches hash path Hgood)) as (Hnd & Hne & Hpaths).
    split_and!; [done..|]. intros h. rewrite Hpaths.
    unfold paths_under at 1. rewrite branches_add_get, filter_cons. simpl.
    destruct (decide (h = hash)) as [->|Hneq].
    + rewrite decide_True by done. csimpl. by rewrite <- app_assoc.
    + rewrite decide_False by congruence. done.
Qed.

End branches_facts.

Lemma collect_branches_good files :
  NoDup (collect_branches files).*1 ∧
  ∀ h, branches_get (collect_branches files) h
       = match files_with files h with
         | [] => None
         | paths => Some paths
         end.
Proof.
  destruct (collect_branches_from files []) as (Hnd & Hne & Hpaths).
  { split; [constructor | done]. }
  split; [done|]. intros h. specialize (Hpaths h). specialize (Hne h).
  unfold collect_branches, paths_under in *. simpl in Hpaths.
  destruct (branches_get _ h) as [ps|]; simpl in Hpaths; rewrite <- Hpaths; [|done].
  by destruct ps.
Qed.

(** The dictionary [return_branches] builds has each hash as a key once,
    and under a hash the paths of all the branch files that hold it, in
    the order of the walk; a hash that no file holds is no key. *)
Theorem collect_branches_groups files :
  NoDup (collect_branches files).*1 ∧
  ∀ h, branches_get (collect_branches files) h
       = match files_with files h with
         | [] => None
         | paths => Some paths
         end.
Proof.
  destruct (collect_branches_from files []) as (Hnd & Hne & Hpaths).
  { split; [constructor | done]. }
  split; [done|]. intros h. specialize (Hpaths h). specialize (Hne h).
  unfold collect_branches, paths_under in *. simpl in Hpaths.
  destruct (branches_get _ h) as [ps|]; simpl in Hpaths; rewrite <- Hpaths; [|done].
  by destruct ps.
Qed.

Lemma collect_branches_keys files : ∀ branches,
  (fold_left (λ branches file, branches_add branches file.2 file.1) files branches).*1
  = fold_left (λ keys h, if decide (h ∈ keys) then keys else keys ++ [h])
      files.*2 branches.*1.
Proof.
  induction files as [|[path hash] files IH]; intros branches; csimpl; [done|].
  by rewrite IH, branches_add_keys.
Qed.

Lemma first_occurrences (l : list string) :
  fold_left (λ keys h, if decide (h ∈ keys) then keys else keys ++ [h]) l []
  = reverse (remove_dups (reverse l)).
Proof.
  induction l as [|x l IH] using rev_ind; [done|].
  rewrite fold_left_app, IH. simpl.
  rewrite reverse_app, reverse_singleton. simpl.
  destruct (decide_rel elem_of x (reverse l)) as [Hin|Hin].
  - rewrite decide_True; [done|]. by rewrite elem_of_reverse, elem_of_remove_dups.
  - rewrite decide_False by (by rewrite elem_of_reverse, elem_of_remove_dups).
    by rewrite reverse_cons.
Qed.

(** The work list of [build_commit_graph], seeded from the dictionary of
    [return_branches], holds each hash found in a branch file once, at the
    place of its first file in the walk. *)
Theorem worklist_follows_the_walk files :
  seed_processing_list (collect_branches files)
  = reverse (remove_dups (reverse files.*2)).
Proof.
  rewrite seed_processing_list_keys. unfold collect_branches.
  by rewrite collect_branches_keys, first_occurrences.
Qed.



(** From the branch files to the printed line: next to its hash a commit
    gets the paths of all the branch files that hold the hash, in
    lexicographic order. *)
Theorem branch_files_on_commit_line files h :
  commit_line (sort_branch_names (collect_branches files)) h
  = match files_with files h with
    | [] => print [h]
    | paths => print (h :: merge_sort String.le paths)
    end.
Proof.
  unfold commit_line. rewrite branches_get_sorted.
  rewrite (proj2 (collect_branches_good files) h).
  by destruct (files_with files h).
Qed.

(** ** grab_commits *)

Section grab_facts.
Context (utf8 : string → bool).

Lemma read_parents_acc lines : ∀ acc parents,
  read_parents utf8 lines acc = inr parents → ∃ new, parents = acc ++ new.
Proof.
  induction lines as [|line lines IH]; intros acc parents; simpl.
  - intros [= <-]. exists []. by rewrite app_nil_r.
  - destruct (String.prefix "author" line).
    + intros [= <-]. exists []. by rewrite app_nil_r.
    + destruct (String.prefix "parent" line); [destruct (utf8 line); [|done]|].
      * intros [new ->]%IH. exists (after_parent line :: new). by rewrite <- app_assoc.
      * apply IH.
Qed.

Lemma read_object_commit path data c :
  read_object utf8 path data = inr (Some c) →
  commit_hash c = remove_slashes path ∧ children c = [] ∧ temp_parents c = [].
Proof.
  unfold read_object. destruct (split_header data) as [[header content]|]; [|done].
  destruct (String.prefix "commit" header); [|done].
  destruct (read_parents utf8 (split_lines content) []); [done|].
  by intros [= <-].
Qed.

Lemma read_objects_acc files : ∀ acc commits,
  read_objects utf8 files acc = inr commits →
  ∃ new, commits = acc ++ new ∧
         Forall (λ c, children c = [] ∧ temp_parents c = []) new ∧
         hashes new `sublist_of` (remove_slashes ∘ fst <$> files).
Proof.
  induction files as [|[path data] files IH]; intros acc commits; simpl.
  - intros [= <-]. exists []. rewrite app_nil_r. split_and!; [done | constructor | done].
  - destruct (read_object utf8 path data) as [|[c|]] eqn:E; [done| |].
    + intros (new & -> & Hnew & Hsub)%IH. exists (c :: new).
      apply read_object_commit in E as (Hh & Hc & Ht).
      split_and!; [by rewrite <- app_assoc | by constructor |].
      unfold hashes in *. csimpl. rewrite Hh. by apply sublist_skip.
    + intros (new & -> & Hnew & Hsub)%IH. exists new.
      split_and!; [done..|]. csimpl. by apply sublist_cons.
Qed.

(** The commits [grab_commits] returns are as the graph builder expects
    them: at least one, none with a child or a waiting parent recorded, and
    their hashes are the paths of object files with the slashes taken out,
    in the order of the walk.  Nothing went to the error stream. *)
Theorem grab_commits_returns_fresh objects_is_dir files err commits :
  grab_commits utf8 objects_is_dir files = inr (err, Return commits) →
  err = [] ∧ commits ≠ [] ∧ fresh commits ∧
  Forall (λ c, temp_parents c = []) commits ∧
  hashes commits `sublist_of` (remove_slashes ∘ fst <$> files).
Proof.
  unfold grab_commits. destruct objects_is_dir; simpl; [|done].
  destruct (read_objects utf8 files []) as [|cs] eqn:E; [done|].
  apply read_objects_acc in E as (new & -> & Hnew & Hsub). simpl in *.
  destruct new as [|c new]; [done|]. intros [= <- <-].
  split_and!; [done | done | | | done].
  - unfold fresh. eapply Forall_impl; [exact Hnew|]. by intros ? [? ?].
  - eapply Forall_impl; [exact Hnew|]. by intros ? [? ?].
Qed.

Lemma read_objects_none files : ∀ acc,
  (∀ path data, (path, data) ∈ files → read_object utf8 path data = inr None) →
  read_objects utf8 files acc = inr acc.
Proof.
  induction files as [|[path data] files IH]; intros acc Hnone; simpl; [done|].
  rewrite (Hnone path data) by (by left). apply IH.
  intros p d Hin. apply Hnone. by right.
Qed.

(** When no object file holds a commit -- none at all, or only other
    kinds of object -- [grab_commits] writes its one line and exits with
    status 1. *)
Theorem grab_commits_without_commits files :
  (∀ path data, (path, data) ∈ files → read_object utf8 path data = inr None) →
  grab_commits utf8 true files = inr ([error_no_commits], Exit 1).
Proof.
  intros Hnone. unfold grab_commits. simpl. by rewrite read_objects_none.
Qed.

Lemma split_header_app h c :
  without_byte "000" h = true → split_header (h +:+ NUL +:+ c) = Some (h, c).
Proof.
  induction h as [|a h IH]; [done|]. simpl.
  intros [Ha Hh]%andb_true_iff. apply negb_true_iff, bool_decide_eq_false in Ha.
  change (String a h +:+ NUL +:+ c) with (String a (h +:+ NUL +:+ c)). simpl.
  rewrite decide_False by done. by rewrite IH.
Qed.

Lemma split_lines_app s t :
  without_byte "010" s = true → split_lines (s +:+ LF +:+ t) = s :: split_lines t.
Proof.
  induction s as [|a s IH]; [done|]. simpl.
  intros [Ha Hs]%andb_true_iff. apply negb_true_iff, bool_decide_eq_false in Ha.
  change (String a s +:+ LF +:+ t) with (String a (s +:+ LF +:+ t)). simpl.
  rewrite decide_False by done. by rewrite IH.
Qed.

Lemma split_lines_author rest :
  ∃ line lines, split_lines ("author " +:+ rest) = line :: lines ∧
                String.prefix "author" line = true.
Proof.
  assert (∃ l ls, split_lines rest = l :: ls) as (l & ls & E).
  { destruct rest as [|a rest]; simpl; [eauto|].
    destruct (decide (a = "010"%char)); [eauto|].
    destruct (split_lines rest); eauto. }
  exists ("author " +:+ l), ls. split; [|done].
  change ("author " +:+ rest) with
    (String "a" (String "u" (String "t" (String "h" (String "o" (String "r"
       (String " " rest))))))).
  cbn [split_lines]. rewrite E. done.
Qed.

Lemma split_lines_parents ps text :
  (∀ p, p ∈ ps → without_byte "010" p = true) →
  split_lines (foldr (λ p text, "parent " +:+ p +:+ LF +:+ text) text ps)
  = (String.append "parent " <$> ps) ++ split_lines text.
Proof.
  induction ps as [|p ps IH]; intros Hps; [done|]. csimpl.
  rewrite <- append_assoc, split_lines_app, IH; [done | |].
  - intros q Hq. apply Hps. by right.
  - apply (Hps p). by left.
Qed.

Lemma after_parent_line p :
  starts_a_character p = true → after_parent ("parent " +:+ p) = p.
Proof.
  unfold after_parent. change (drop_bytes 6 ("parent " +:+ p)) with (String " " p).
  destruct p as [|a p]; [done|]. simpl. intros Ha%negb_true_iff. by rewrite Ha.
Qed.

Lemma read_parents_lines ps : ∀ acc author more,
  String.prefix "author" author = true →
  (∀ p, p ∈ ps → starts_a_character p = true ∧ utf8 ("parent " +:+ p) = true) →
  read_parents utf8 ((String.append "parent " <$> ps) ++ author :: more) acc
  = inr (acc ++ ps).
Proof.
  induction ps as [|p ps IH]; intros acc author more Ha Hps; csimpl.
  - rewrite Ha. by rewrite app_nil_r.
  - destruct (Hps p) as [Hp Hu]; [by left|].
    change (String.prefix "author" ("parent " +:+ p)) with false.
    change (String.prefix "parent" ("parent " +:+ p)) with true.
    cbv iota. rewrite Hu, after_parent_line by done.
    rewrite IH; [by rewrite <- app_assoc | done |].
    intros q Hq. apply Hps. by right.
Qed.

(** Reading back a commit object as Git writes it gives the commit with
    the path, slashes taken out, as its hash and the parents of the parent
    lines, in their order -- whatever comes from the author line on: a
    message cannot add a parent. *)
Theorem read_object_commit_bytes path size tree ps rest :
  without_byte "000" size = true →
  without_byte "010" tree = true →
  (∀ p, p ∈ ps → without_byte "010" p = true ∧ starts_a_character p = true ∧
                 utf8 ("parent " +:+ p) = true) →
  read_object utf8 path (commit_object_bytes size tree ps rest)
  = inr (Some (mkCommit (remove_slashes path) ps [] [])).
Proof.
  intros Hsize Htree Hps. unfold read_object, commit_object_bytes.
  rewrite <- (append_assoc "commit " size), split_header_app by done.
  change (String.prefix "commit" ("commit " +:+ size)) with true. cbv iota.
  rewrite <- (append_assoc "tree " tree), split_lines_app by done.
  rewrite split_lines_parents by (intros p Hp; by apply Hps).
  destruct (split_lines_author rest) as (line & lines & -> & Hline).
  cbn [read_parents].
  change (String.prefix "author" ("tree " +:+ tree)) with false.
  change (String.prefix "parent" ("tree " +:+ tree)) with false. cbv iota.
  rewrite read_parents_lines; [done | done |].
  intros p Hp. destruct (Hps p Hp) as (_ & ? & ?). done.
Qed.

End grab_facts.

(** ** The added statements on concrete inputs *)

Lemma lone_head_NoDup : NoDup (hashes lone_head).
Proof. by_evaluation. Qed.

Lemma remove_unvisited_commits_skips_witness :
  remove_unvisited_commits lone_head lone_head_visited
  = skip_prune lone_head_visited lone_head.
Proof. exact (remove_unvisited_commits_skips lone_head lone_head_visited lone_head_NoDup). Defined.

Lemma apart_unvisited_apart : unvisited_apart lone_head_visited apart.
Proof.
  intros i c d Hc Hd. destruct i as [|[|[|i]]]; simpl in *; simplify_eq; done.
Qed.

Lemma remove_unvisited_commits_complete_witness :
  remove_unvisited_commits apart lone_head_visited
  = filter (λ c, negb (not_in_visited lone_head_visited c)) apart.
Proof.
  apply (remove_unvisited_commits_complete apart lone_head_visited).
  - by_evaluation.
  - exact apart_unvisited_apart.
Defined.


Lemma root_commits_are_the_reachable_roots_witness :
  NoDup ["A"] ∧
  ∀ h, h ∈ ["A"] ↔ reachable ["C"] chain3 h ∧ has chain3 h ∧ parents_of chain3 h = [].
Proof.
  exact (root_commits_are_the_reachable_roots [("C", ["main"])] chain3 chain3_built ["A"]
           chain3_fresh chain3_build).
Defined.

Lemma built_graph_keeps_the_reachable_witness :
  record <$> chain3_built `sublist_of` record <$> chain3 ∧
  ∀ h, reachable ["C"] chain3 h →
       has chain3_built h ∧ parents_of chain3_built h = parents_of chain3 h ∧
       (∀ p, p ∈ parents_of chain3_built h → h ∈ children_of chain3_built p) ∧
       (∀ c, c ∈ children_of chain3_built h → h ∈ parents_of chain3_built c).
Proof.
  exact (built_graph_keeps_the_reachable [("C", ["main"])] chain3 chain3_built ["A"]
           chain3_fresh chain3_build).
Defined.

Lemma returned_order_is_topological_witness :
  let sorted := ["A"; "B"; "C"] in
  NoDup sorted ∧
  (∀ h, h ∈ sorted ↔ reachable ["C"] chain3 h) ∧
  (∀ c, c ∈ chain3_built → commit_hash c ∈ sorted) ∧
  (∀ c p, c ∈ chain3_built → p ∈ parents c →
     ∃ i j, sorted !! i = Some p ∧ sorted !! j = Some (commit_hash c) ∧ i < j).
Proof.
  apply (returned_order_is_topological [("C", ["main"])] chain3 chain3_built ["A"] 10
           (mkSorted chain3_built ["A"; "B"; "C"] [] (Return ["A"; "B"; "C"]))
           ["A"; "B"; "C"] chain3_fresh chain3_NoDup chain3_build).
  - vm_compute. reflexivity.
  - reflexivity.
Defined.

Example lone_head_build :
  build_commit_graph [("A", ["main"])] lone_head []
  = Some (Ok ([new_commit "A" []; new_commit "Y" []], ["A"])).
Proof. vm_compute. reflexivity. Qed.

Lemma leftover_commit_fails_the_sort_witness :
  ∃ r, (∀ fuel, length [new_commit "A" []; new_commit "Y" []] < fuel →
          topological_sort fuel [new_commit "A" []; new_commit "Y" []] ["A"]
          = Some (Ok r)) ∧
       r_outcome r = Exit 1 ∧
       (r_stderr r = [error_cycle] ∨ r_stderr r = [error_sort]).
Proof.
  apply (leftover_commit_fails_the_sort [("A", ["main"])] lone_head
           [new_commit "A" []; new_commit "Y" []] ["A"] (new_commit "Y" [])).
  - repeat constructor.
  - exact lone_head_NoDup.
  - exact lone_head_build.
  - right. by left.
  - by intros ?%only_head_reachable.
Defined.

Lemma diamond_built_has h : h ∈ ["M"; "C"; "B"; "A"] → has diamond_built h.
Proof. intros Hh. list_cases Hh; eexists; vm_compute; reflexivity. Qed.

Lemma print_sticky_sorted_order_no_raise_witness :
  (print_sticky_sorted_order ["M"; "C"; "B"; "A"] diamond_built
     [("M", ["dev"; "main"])]).2 = None.
Proof.
  exact (print_sticky_sorted_order_no_raise diamond_built [("M", ["dev"; "main"])]
           ["M"; "C"; "B"; "A"] diamond_built_has).
Defined.

Lemma print_sticky_sorted_order_chain_witness :
  print_sticky_sorted_order ["C"; "B"; "A"] chain3_built [("C", ["main"])]
  = (foldr (λ h text, commit_line [("C", ["main"])] h +:+ text) "" ["C"; "B"; "A"], None).
Proof.
  apply (print_sticky_sorted_order_chain chain3_built [("C", ["main"])] ["C"; "B"; "A"]).
  - intros h Hh. list_cases Hh; eexists; vm_compute; reflexivity.
  - intros i cur nxt Hc Hn.
    destruct i as [|[|[|i]]]; simpl in *; simplify_eq; vm_compute; by left.
Defined.

Lemma topo_order_commits_ends_witness :
  (∃ out, Finished ("C main" +:+ LF +:+ "B" +:+ LF +:+ "A" +:+ LF) [] 0
          = Finished out [] 0) ∨
  Finished ("C main" +:+ LF +:+ "B" +:+ LF +:+ "A" +:+ LF) [] 0
  = Finished "" [error_cycle] 1 ∨
  Finished ("C main" +:+ LF +:+ "B" +:+ LF +:+ "A" +:+ LF) [] 0
  = Finished "" [error_sort] 1 ∨
  (∃ attr h, Finished ("C main" +:+ LF +:+ "B" +:+ LF +:+ "A" +:+ LF) [] 0
             = Traceback "" [] (AttributeError attr) ∧
             reachable ["C"] chain3 h ∧ ¬ has chain3 h).
Proof.
  exact (topo_order_commits_ends 10 [("C", ["main"])] chain3 _ chain3_fresh chain3_run).
Defined.

Lemma topo_order_commits_succeeds_witness :
  ∃ out, ∀ fuel, length chain3_built < fuel →
    topo_order_commits fuel [("C", ["main"])] chain3 = Some (Finished out [] 0).
Proof.
  exact (topo_order_commits_succeeds [("C", ["main"])] chain3 chain3_built ["A"]
           chain3_fresh chain3_NoDup chain3_build chain3_reachable chain3_acyclic).
Defined.

Lemma grab_commits_returns_fresh_witness :
  let commits := [mkCommit "abcd" ["p1"; "p2"] [] []] in
  [] = @nil string ∧ commits ≠ [] ∧ fresh commits ∧
  Forall (λ c, temp_parents c = []) commits ∧
  hashes commits `sublist_of`
    (remove_slashes ∘ fst <$> [("ab/cd", sample_commit); ("info/x", sample_blob)]).
Proof.
  apply (grab_commits_returns_fresh ascii_only true
           [("ab/cd", sample_commit); ("info/x", sample_blob)]).
  vm_compute. reflexivity.
Defined.

Lemma grab_commits_without_commits_witness :
  grab_commits ascii_only true [("info/x", sample_blob)]
  = inr ([error_no_commits], Exit 1).
Proof.
  apply (grab_commits_without_commits ascii_only [("info/x", sample_blob)]).
  intros path data [= -> ->]%list_elem_of_singleton. vm_compute. reflexivity.
Defined.

Lemma read_object_commit_bytes_witness :
  read_object ascii_only "ab/cd" sample_commit
  = inr (Some (mkCommit "abcd" ["p1"; "p2"] [] [])).
Proof.
  apply (read_object_commit_bytes ascii_only "ab/cd" "200" "9a" ["p1"; "p2"]
           ("me" +:+ LF +:+ LF +:+ "parent of all bugs" +:+ LF)).
  - reflexivity.
  - reflexivity.
  - intros p Hp. list_cases Hp; vm_compute; done.
Defined.

(** ** Object files that end the run *)





